(** * loopback-swagger: the document assembler

    A shallow embedding of [lib/specgen/swagger-spec-generator.js]
    ([createSwaggerObject] and [generateSwaggerObjectBase]) together with the
    properties the specification states about the assembled OpenAPI document.

    Conventions of the embedding.
    - JavaScript strings are [string]s; [<], [>] and the default ordering of
      [Array.prototype.sort] compare them code unit by code unit, which is
      [String.le] here.
    - An object whose key order is observable (the returned document, its
      [paths] and [components.schemas], the option objects walked by
      [for..in]) is an association list [Obj V] holding its own properties in
      enumeration order: the array-index keys first, in ascending numeric
      order, then the other keys in the order of their creation.
      [obj_set] is the assignment [o[k] = v], including the case of the key
      [__proto__], which names the prototype and not a property unless the
      object has an own property of that name.
    - An object that is only read by key, or whose keys are sorted before
      use (the [paths] grid filled by the route mapper, the schema table of
      the type registry, [usedTags], [_swaggerMethods]) is a [gmap] of its
      own properties.  [usedTags] and [_swaggerMethods] are plain objects and
      are read with [o[k]], which also finds the members inherited from
      [Object.prototype]: [plain_truthy] is that read.
    - [_.defaults] and [_.assign] are those of lodash 4.
    - The helper modules required by the file ([route-helper],
      [model-helper], [type-converter], [tag-builder], [type-registry]) are
      the interface [Helpers]; every property is proved for all its
      instances.
    - [g.error] appends to a diagnostic log; the [TypeError] raised by
      dereferencing [null] is the only exception that is modelled.  The
      listeners of the final [emit('swaggerResources', ...)] are taken to
      leave the document untouched. *)

From Stdlib Require Import ZArith Ascii String.
From stdpp Require Import base option list strings gmap sorting.

Open Scope string_scope.
Open Scope list_scope.

(** ** Strings *)

(** [s.startsWith(p)], returning what follows the prefix. *)
Fixpoint strip_prefix (p s : string) : option string :=
  match p, s with
  | EmptyString, _ => Some s
  | String a p', String b s' =>
      if Ascii.eqb a b then strip_prefix p' s' else None
  | String _ _, EmptyString => None
  end.

(** [s.replace(pat, '')] for a string pattern: only the first occurrence of
    [pat] is removed, wherever it stands. *)
Fixpoint remove_first (pat s : string) : string :=
  match strip_prefix pat s with
  | Some rest => rest
  | None =>
      match s with
      | EmptyString => EmptyString
      | String c s' => String c (remove_first pat s')
      end
  end.

(** The text before and after the first ["."], if there is one. *)
Fixpoint split_first_dot (s : string) : option (string * string) :=
  match s with
  | EmptyString => None
  | String c s' =>
      if Ascii.eqb c "."%char then Some (EmptyString, s')
      else match split_first_dot s' with
           | Some (a, b) => Some (String c a, b)
           | None => None
           end
  end.

(** The characters the regular-expression atom [.] refuses (line feed and
    carriage return, among 8-bit characters). *)
Definition is_line_terminator (c : ascii) : bool :=
  Ascii.eqb c "010"%char || Ascii.eqb c "013"%char.

Fixpoint has_line_terminator (s : string) : bool :=
  match s with
  | EmptyString => false
  | String c s' => is_line_terminator c || has_line_terminator s'
  end.

(** [exec] of the route loop's regular expression (start of input, a
    non-empty run of characters other than the dot, a dot, any characters
    matched by the atom [.], end of input) on [s]: [None] is the [null] of a
    failed match, [Some (g1, g2)] the two capture groups.  The first group
    ends at the first dot; the second must reach the end of the input
    without meeting a line terminator. *)
Definition exec_class_method (s : string) : option (string * string) :=
  match split_first_dot s with
  | Some (g1, g2) =>
      if String.eqb g1 "" || has_line_terminator g2 then None
      else Some (g1, g2)
  | None => None
  end.

(** [/\/$/.test(s)] *)
Fixpoint ends_with_slash (s : string) : bool :=
  match s with
  | EmptyString => false
  | String c EmptyString => Ascii.eqb c "/"%char
  | String _ s' => ends_with_slash s'
  end.

(** [s.slice(0, -1)] *)
Fixpoint drop_last (s : string) : string :=
  match s with
  | EmptyString => EmptyString
  | String _ EmptyString => EmptyString
  | String c s' => String c (drop_last s')
  end.

(** Truthiness of a string: every string but the empty one. *)
Definition truthy (s : string) : bool := negb (String.eqb s "").

(** ** Objects with observable key order *)

Definition Obj (V : Type) : Type := list (string * V).

Fixpoint obj_get {V} (k : string) (o : Obj V) : option V :=
  match o with
  | [] => None
  | (k', v) :: o' => if String.eqb k k' then Some v else obj_get k o'
  end.

(** [Object.keys(o)] *)
Definition obj_keys {V} (o : Obj V) : list string := o.*1.

(** The value of a decimal digit. *)
Definition digit_of (c : ascii) : option N :=
  let n := N_of_ascii c in
  if (48 <=? n)%N && (n <=? 57)%N then Some (n - 48)%N else None.

(** The number written by a string of decimal digits, after [acc]. *)
Fixpoint digits_value (acc : N) (s : string) : option N :=
  match s with
  | EmptyString => Some acc
  | String c s' =>
      match digit_of c with
      | Some d => digits_value (10 * acc + d)%N s'
      | None => None
      end
  end.

(** A property key is an array index when it is the canonical decimal
    writing (no sign, no leading zero) of an integer below [2^32 - 1]. *)
Definition array_index (k : string) : option N :=
  match k with
  | EmptyString => None
  | String c rest =>
      if Ascii.eqb c "0"%char && negb (String.eqb rest "") then None
      else
        match digits_value 0 k with
        | Some n => if (n <? 4294967295)%N then Some n else None
        | None => None
        end
  end.

(** The value of an existing property is replaced where it stands. *)
Fixpoint obj_replace {V} (k : string) (v : V) (o : Obj V) : Obj V :=
  match o with
  | [] => []
  | (k', v') :: o' =>
      if String.eqb k k' then (k, v) :: o' else (k', v') :: obj_replace k v o'
  end.

(** A new property whose key is the array index [n] goes in front of the
    first property that is not an array index below [n]. *)
Fixpoint obj_insert_index {V} (n : N) (k : string) (v : V) (o : Obj V) : Obj V :=
  match o with
  | [] => [(k, v)]
  | (k', v') :: o' =>
      match array_index k' with
      | Some n' =>
          if (n' <? n)%N then (k', v') :: obj_insert_index n k v o'
          else (k, v) :: o
      | None => (k, v) :: o
      end
  end.

(** The own property [k] of [o] is given the value [v]: an existing
    property keeps its place, a new array index is put among the array
    indices, any other new key goes last. *)
Definition obj_define {V} (k : string) (v : V) (o : Obj V) : Obj V :=
  match obj_get k o with
  | Some _ => obj_replace k v o
  | None =>
      match array_index k with
      | Some n => obj_insert_index n k v o
      | None => o ++ [(k, v)]
      end
  end.

(** [o[k] = v].  On an object without own property [__proto__] that key
    is the accessor inherited from [Object.prototype]: the assignment can
    only change the prototype, and it creates no own property. *)
Definition obj_set {V} (k : string) (v : V) (o : Obj V) : Obj V :=
  match obj_get k o with
  | None => if String.eqb k "__proto__" then o else obj_define k v o
  | Some _ => obj_define k v o
  end.

(** The order in which own keys are enumerated: [a] may come before [b]
    unless [b] is an array index and [a] is not, or both are array indices
    and [b] is the smaller one. *)
Definition index_first (a b : string) : Prop :=
  match array_index a, array_index b with
  | Some x, Some y => (x ≤ y)%N
  | Some _, None => True
  | None, Some _ => False
  | None, None => True
  end.

(** The keys of a list that are not array indices. *)
Definition names (ks : list string) : list string :=
  filter (λ k, array_index k = None) ks.

(** [_.assign(dest, src)]: the own properties of [src] are defined on
    [dest], in the order they are enumerated. *)
Definition assign {V} (dest src : Obj V) : Obj V :=
  foldl (λ d kv, obj_define kv.1 kv.2 d) dest src.

(** ** Plain objects read by key *)

(** The members every plain object inherits from [Object.prototype]; all
    of them hold a function or an object. *)
Definition objectPrototype : list string :=
  [ "constructor"; "__defineGetter__"; "__defineSetter__"; "hasOwnProperty";
    "__lookupGetter__"; "__lookupSetter__"; "isPrototypeOf";
    "propertyIsEnumerable"; "toString"; "valueOf"; "__proto__";
    "toLocaleString" ].

(** Truthiness of [o[k]] for a plain object with the own properties [o]:
    an own property is read first, then the inherited members, and a
    property found in neither place is [undefined]. *)
Definition plain_truthy (o : gmap string bool) (k : string) : bool :=
  match o !! k with
  | Some b => b
  | None => bool_decide (k ∈ objectPrototype)
  end.

(** [o[k] = true] on a plain object held as a map. *)
Definition plain_mark (k : string) (o : gmap string bool) : gmap string bool :=
  match o !! k with
  | None => if String.eqb k "__proto__" then o else <[k := true]> o
  | Some _ => <[k := true]> o
  end.

(** ** Sorting *)

(** [keys.sort()] with the default comparison. *)
Definition sort_strings (l : list string) : list string :=
  merge_sort String.le l.

(** [arr.sort(cmp)]: [a] may stay in front of [b] when [cmp(a, b) <= 0]. *)
Definition cmp_le {A} (cmp : A → A → Z) : relation A :=
  λ a b, (cmp a b ≤ 0)%Z.

#[global] Instance cmp_le_dec {A} (cmp : A → A → Z) : RelDecision (cmp_le cmp).
Proof. intros a b. unfold cmp_le. apply _. Defined.

Definition sort_with {A} (cmp : A → A → Z) (l : list A) : list A :=
  merge_sort (cmp_le cmp) l.

(** ** Input descriptors *)

(** A route of the REST adapter ([adapter.allRoutes()]). *)
Module Route.
Record t := {
  method : string;      (* compound identifier, "Class.method" *)
  documented : bool;
  verb : string;
  path : string
}.
End Route.

(** A remote method as listed by [aClass.methods()]. *)
Module SharedMethod.
Record t := { name : string; documented : bool }.
End SharedMethod.

(** A remote class ([remotes.classes()]).  An absent [name] is the empty
    string: both are falsy, and neither equals a parsed class name.
    [_swaggerMethods] is [None] when the class declares no allow-list, and
    otherwise the own properties of the plain object that is the
    allow-list. *)
Module SharedClass.
Record t := {
  name : string;
  methods : list SharedMethod.t;
  _swaggerMethods : option (gmap string bool)
}.
End SharedClass.

Record SecurityScheme := {
  scheme_type : string;
  scheme_in : string;
  scheme_name : string
}.

(** How the caller passed an option that the code tests for truthiness. *)
Inductive Supplied (A : Type) : Type :=
  | Absent            (* undefined: the default applies *)
  | Falsy             (* null, false: kept as it is *)
  | Given (a : A).
Arguments Absent {A}.
Arguments Falsy {A}.
Arguments Given {A} a.

(** The [opts] argument; [None] is a key the caller left out. *)
Record Options := {
  basePath : option string;
  consumes : option (list string);
  produces : option (list string);
  securitySchemes : Supplied (Obj SecurityScheme);
  version : option string;
  apiInfo : option (Obj string);
  host : option string
}.

(** Values of the application's [swagger] setting. *)
#[local] Unset Elimination Schemes.
Inductive Json :=
  | JNull
  | JBool (b : bool)
  | JNumber (z : Z)
  | JString (s : string)
  | JArray (l : list Json)
  | JObject (o : list (string * Json)).
#[local] Set Elimination Schemes.

(** ** The helper modules *)

Class Helpers := {
  Model : Type;
  Schema : Type;
  Operation : Type;
  Tag : Type;
  TypeRegistry : Type;
  OperationIdRegistry : Type;
  (* type-registry: [new TypeRegistry()] and [getSchemas()] *)
  newTypeRegistry : TypeRegistry;
  getSchemas : TypeRegistry → gmap string Schema;
  (* [Object.create(null)] *)
  newOperationIdRegistry : OperationIdRegistry;
  (* model-helper *)
  registerModelDefinition : Model → TypeRegistry → Options → TypeRegistry;
  (* tag-builder *)
  buildTagFromClass : SharedClass.t → Tag;
  tag_name : Tag → string;
  (* route-helper: path template, method slot and operation of a route,
     with the registries as the mapping leaves them *)
  routeToPathEntry :
    Route.t → SharedClass.t → TypeRegistry → OperationIdRegistry → Options →
    (string * string * Operation) * TypeRegistry * OperationIdRegistry;
  operation_tags : Operation → list string;
  (* type-converter *)
  convertText : string → string
}.

(** The application being documented, as far as the generator reads it. *)
Record Application `{Helpers} := {
  restApiRoot : option string;          (* get('restApiRoot') *)
  swagger : option (Obj Json);          (* get('swagger') *)
  routes : list Route.t;
  classes : list SharedClass.t;
  models : Obj Model;                   (* registry.modelBuilder.models *)
  packageJson : option (Obj string)     (* package.json of the working
                                           directory, when it can be read *)
}.

(** ** Exceptions and diagnostics *)

Inductive Exception := TypeError.

Inductive Diagnostic :=
  | RouteWithNoClass (route : Route.t).

(** A computation that logs diagnostics and either throws or returns. *)
Definition M (A : Type) : Type := list Diagnostic * (Exception + A).

#[global] Instance M_ret : MRet M := λ A a, ([], inr a).

#[global] Instance M_bind : MBind M := λ A B f m,
  match m with
  | (l, inl e) => (l, inl e)
  | (l, inr a) => (l ++ (f a).1, (f a).2)
  end.

Definition throw {A} (e : Exception) : M A := ([], inl e).

Definition g_error (d : Diagnostic) : M unit := ([d], inr ()).

(** [l.forEach(...)] for a body that updates the state [s]. *)
Fixpoint forEachM {A S} (body : S → A → M S) (l : list A) (s : S) : M S :=
  match l with
  | [] => mret s
  | x :: l' => s' ← body s x; forEachM body l' s'
  end.

(** What a run logged, and how it ended. *)
Definition diagnostics {A} (m : M A) : list Diagnostic := m.1.
Definition outcome {A} (m : M A) : Exception + A := m.2.

(** ** The generator *)

Section Generator.
Context `{Helpers}.

(** *** The document *)

Record Server := { url : option string }.

Record Components := {
  schemas : Obj Schema;
  components_securitySchemes : Supplied (Obj SecurityScheme)
}.

(** A path item of the returned document: one slot per HTTP method, holding
    an operation or [undefined] ([None]). *)
Definition PathItem : Type := Obj (option Operation).

(** The values held by the properties of the document. *)
Inductive Value :=
  | VUndefined
  | VString (s : string)
  | VInfo (i : Obj string)
  | VServers (l : list Server)
  | VPaths (p : Obj PathItem)
  | VTags (l : list Tag)
  | VComponents (c : Components)
  | VSecurity (l : list (Obj (list string)))
  | VJson (j : Json).

Definition SwaggerObject : Type := Obj Value.

(** [_.defaults(dest, src)]: a property of [src] is copied when [dest]
    has no defined value under that key. *)
Definition defaults (dest src : SwaggerObject) : SwaggerObject :=
  foldl (λ d kv,
           match obj_get kv.1 d with
           | None | Some VUndefined => obj_set kv.1 kv.2 d
           | Some _ => d
           end) dest src.

(** A key under which [_.defaults] stores the value of the source. *)
Definition undefinedAt (k : string) (d : SwaggerObject) : Prop :=
  obj_get k d = None ∨ obj_get k d = Some VUndefined.

(** [o[k] = f(o[k])] on a property that exists. *)
Definition obj_modify {V} (k : string) (f : V → V) (o : Obj V) : Obj V :=
  (λ kv, if String.eqb kv.1 k then (kv.1, f kv.2) else kv) <$> o.

Definition on_paths (f : Obj PathItem → Obj PathItem) (v : Value) : Value :=
  match v with VPaths p => VPaths (f p) | _ => v end.

Definition on_schemas (f : Obj Schema → Obj Schema) (v : Value) : Value :=
  match v with
  | VComponents c =>
      VComponents {| schemas := f (schemas c);
                     components_securitySchemes :=
                       components_securitySchemes c |}
  | _ => v
  end.

(** *** Options and the base document *)

Definition getPackagePropertyOrDefault (app : Application)
    (name defautValue : string) : string :=
  match packageJson app with
  | Some pkg =>
      match obj_get name pkg with
      | Some v => if truthy v then v else defautValue
      | None => defautValue
      end
  | None => defautValue
  end.

Definition defaultSecuritySchemes : Obj SecurityScheme :=
  [ ("accessToken",
     {| scheme_type := "apiKey"; scheme_in := "header";
        scheme_name := "authorization" |});
    ("accessTokenParam",
     {| scheme_type := "apiKey"; scheme_in := "query";
        scheme_name := "access_token" |}) ].

Definition or_default {A} (o : option A) (d : A) : option A :=
  match o with Some a => Some a | None => Some d end.

(** [_.defaults(opts || {}, {...})] at the head of [createSwaggerObject]. *)
Definition withDefaults (app : Application) (opts : Options) : Options :=
  {| basePath :=
       or_default (basePath opts)
         (match restApiRoot app with
          | Some r => if truthy r then r else "/api"
          | None => "/api"
          end);
     consumes := or_default (consumes opts) ["application/json"];
     produces := or_default (produces opts) ["application/json"];
     securitySchemes :=
       match securitySchemes opts with
       | Absent => Given defaultSecuritySchemes
       | s => s
       end;
     version :=
       or_default (version opts)
         (getPackagePropertyOrDefault app "version" "1.0.0");
     apiInfo := apiInfo opts;
     host := host opts |}.

(** [info] of the base document. *)
Definition makeInfo (opts : Options) (app : Application) : Obj string :=
  let apiInfo := default [] (apiInfo opts) in
  let apiInfo := (λ kv, (kv.1, convertText kv.2)) <$> apiInfo in
  let apiInfo :=
    obj_set "version"
      (match obj_get "version" apiInfo with
       | Some v => if truthy v then v else default "undefined" (version opts)
       | None => default "undefined" (version opts)
       end) apiInfo in
  let apiInfo :=
    match obj_get "title" apiInfo with
    | Some t =>
        if truthy t then apiInfo
        else obj_set "title"
               (getPackagePropertyOrDefault app "name" "LoopBack Application")
               apiInfo
    | None =>
        obj_set "title"
          (getPackagePropertyOrDefault app "name" "LoopBack Application")
          apiInfo
    end in
  match obj_get "description" apiInfo with
  | Some d =>
      if truthy d then apiInfo
      else obj_set "description"
             (getPackagePropertyOrDefault app "description"
                "LoopBack Application") apiInfo
  | None =>
      obj_set "description"
        (getPackagePropertyOrDefault app "description"
           "LoopBack Application") apiInfo
  end.

(** [security] of the base document: one requirement per configured
    scheme, in the order [for..in] walks them, or [undefined].  A
    requirement is a fresh object [def] filled by [def[type] = []]. *)
Definition makeSecurity (opts : Options) : Value :=
  match securitySchemes opts with
  | Given schemes =>
      VSecurity
        (foldl (λ security type, security ++ [obj_set type [] []]) []
               (obj_keys schemes))
  | _ => VUndefined
  end.

Definition generateSwaggerObjectBase (opts : Options) (app : Application)
    : SwaggerObject :=
  let swaggerSpecExtensions := swagger app in
  let basePath :=
    match basePath opts with
    | Some b =>
        if truthy b && ends_with_slash b then Some (drop_last b) else Some b
    | None => None
    end in
  defaults
    (defaults
       [ ("openapi", VString "3.0.1");
         ("info", VInfo (makeInfo opts app));
         ("servers", VServers [ {| url := basePath |} ]);
         ("paths", VPaths []);
         ("tags", VTags []);
         ("components",
          VComponents
            {| schemas := [];
               components_securitySchemes := securitySchemes opts |});
         ("security", makeSecurity opts) ]
       ((λ kv, (kv.1, VJson kv.2)) <$> default [] swaggerSpecExtensions))
    [ ("host", match host opts with Some h => VString h | None => VUndefined end) ].

(** The keys that the literal of [generateSwaggerObjectBase] always
    defines; [security] is defined too when security schemes are
    configured. *)
Definition coreKeys : list string :=
  ["openapi"; "info"; "servers"; "paths"; "tags"; "components"].

(** *** Tags of the classes *)

(** Body of [classes.forEach] that collects the candidate tags. *)
Definition collectTag (tags : list Tag) (aClass : SharedClass.t) : list Tag :=
  if negb (truthy (SharedClass.name aClass)) then tags
  else
    let hasDocumentedMethods :=
      existsb SharedMethod.documented (SharedClass.methods aClass) in
    if negb hasDocumentedMethods then tags
    else tags ++ [buildTagFromClass aClass].

Definition collectTags (classes : list SharedClass.t) : list Tag :=
  foldl collectTag [] classes.

(** A class that yields a candidate tag: it has a name and at least one
    documented method. *)
Definition eligible (aClass : SharedClass.t) : Prop :=
  truthy (SharedClass.name aClass) = true ∧
  existsb SharedMethod.documented (SharedClass.methods aClass) = true.

#[global] Instance eligible_dec aClass : Decision (eligible aClass).
Proof. unfold eligible. apply _. Defined.

(** *** Routes *)

(** The mutable state of the route loop. *)
Record Assembly := {
  typeRegistry : TypeRegistry;
  operationIdRegistry : OperationIdRegistry;
  paths : gmap string (gmap string Operation)
}.

(** Modelled from the spec: [routeHelper.addRouteToSwaggerPaths] is not in
    this file.  The route mapper yields a path template, a method and an
    operation, and the operation is merged into the path/method grid,
    replacing any previous entry for the same path and method. *)
Definition addRouteToSwaggerPaths (route : Route.t) (classDef : SharedClass.t)
    (st : Assembly) (opts : Options) : Assembly :=
  let '(p, m, operation, typeRegistry', operationIdRegistry') :=
    routeToPathEntry route classDef (typeRegistry st)
      (operationIdRegistry st) opts in
  {| typeRegistry := typeRegistry';
     operationIdRegistry := operationIdRegistry';
     paths := <[p := <[m := operation]> (default ∅ (paths st !! p))]> (paths st) |}.

(** Class and method name of a compound identifier: the two groups of
    the match, the second with the first ["prototype."] removed.  [None]
    when the match fails. *)
Definition parseMethod (method : string) : option (string * string) :=
  match exec_class_method method with
  | Some (className, methodName) =>
      Some (className, remove_first "prototype." methodName)
  | None => None
  end.

(** [classes.filter(item => item.name === className)[0]] *)
Definition findClass (classes : list SharedClass.t) (className : string)
    : option SharedClass.t :=
  head (filter (λ item, SharedClass.name item = className) classes).

(** [_swaggerMethods && !_swaggerMethods[methodName]] *)
Definition filteredOut (classDef : SharedClass.t) (methodName : string) : bool :=
  match SharedClass._swaggerMethods classDef with
  | Some _swaggerMethods => negb (plain_truthy _swaggerMethods methodName)
  | None => false
  end.

(** Body of [routes.forEach]. *)
Definition routeStep (classes : list SharedClass.t) (opts : Options)
    (st : Assembly) (route : Route.t) : M Assembly :=
  if negb (Route.documented route) then mret st
  else
    match parseMethod (Route.method route) with
    | None => throw TypeError      (* [.slice] of [null] *)
    | Some (className, methodName) =>
        match findClass classes className with
        | None => _ ← g_error (RouteWithNoClass route); mret st
        | Some classDef =>
            if filteredOut classDef methodName then mret st
            else mret (addRouteToSwaggerPaths route classDef st opts)
        end
    end.

(** The loop hands [route] to the route mapper, with the class [classDef]:
    the route is documented, its identifier names the class, and the
    allow-list of the class, if any, lets the method through. *)
Definition delegated (classes : list SharedClass.t) (route : Route.t)
    (classDef : SharedClass.t) : Prop :=
  Route.documented route = true ∧
  ∃ className methodName,
    parseMethod (Route.method route) = Some (className, methodName) ∧
    findClass classes className = Some classDef ∧
    filteredOut classDef methodName = false.

(** The route mapper sends [route] to [operation] under [path] and
    [method], in some state of the registries. *)
Definition mapsTo (opts : Options) (route : Route.t) (classDef : SharedClass.t)
    (path method : string) (operation : Operation) : Prop :=
  ∃ typeRegistry operationIdRegistry,
    (routeToPathEntry route classDef typeRegistry operationIdRegistry opts).1.1
    = (path, method, operation).

(** A documented route whose identifier names no class of the list: the
    routes for which the loop calls [g.error]. *)
Definition orphaned (classes : list SharedClass.t) (route : Route.t) : bool :=
  Route.documented route &&
  match parseMethod (Route.method route) with
  | Some (className, _) =>
      match findClass classes className with
      | None => true
      | Some _ => false
      end
  | None => false
  end.

(** *** Finishing the document *)

Definition methods : list string :=
  ["get"; "post"; "put"; "patch"; "delete"; "head"; "options"].

(** [Object.keys] of an object held as a map. *)
Definition map_keys {V} (m : gmap string V) : list string :=
  (map_to_list m).*1.

(** [Object.keys(schemas).sort().forEach(...)] *)
Definition sortSchemas (schemas : gmap string Schema) : Obj Schema :=
  foldl (λ sortedSchema current,
           match schemas !! current with
           | Some s => obj_set current s sortedSchema
           | None => sortedSchema
           end) [] (sort_strings (map_keys schemas)).

(** Body of [methods.forEach] for the path item [item]: the slot is
    copied, and the tags of a defined operation are marked as used. *)
Definition copyMethod (item : gmap string Operation)
    (acc : PathItem * gmap string bool) (method : string)
    : PathItem * gmap string bool :=
  let def := item !! method in
  (obj_set method def acc.1,
   match def with
   | Some d => foldl (λ usedTags tag, plain_mark tag usedTags) acc.2
                     (operation_tags d)
   | None => acc.2
   end).

(** Body of [Object.keys(paths).sort().forEach]: the path item of the
    document is created empty and filled slot by slot. *)
Definition copyPath (paths : gmap string (gmap string Operation))
    (acc : Obj PathItem * gmap string bool) (current : string)
    : Obj PathItem * gmap string bool :=
  let filled := foldl (copyMethod (default ∅ (paths !! current)))
                      ([], acc.2) methods in
  (obj_set current filled.1 acc.1, filled.2).

(** The comparison function given to the sort of the tags. *)
Definition compareTags (a b : Tag) : Z :=
  if String.ltb (tag_name b) (tag_name a) then 1%Z else (-1)%Z.

(** [usedTags[tag.name]] is truthy. *)
Definition isUsed (usedTags : gmap string bool) (tag : Tag) : Prop :=
  plain_truthy usedTags (tag_name tag) = true.

#[global] Instance isUsed_dec usedTags tag : Decision (isUsed usedTags tag).
Proof. unfold isUsed. apply _. Defined.

(** [swaggerObject.paths] *)
Definition documentPaths (swaggerObject : SwaggerObject) : Obj PathItem :=
  match obj_get "paths" swaggerObject with
  | Some (VPaths p) => p
  | _ => []
  end.

(** [p[path][method]] when it holds an operation. *)
Definition operationAt (p : Obj PathItem) (path method : string)
    : option Operation :=
  match obj_get path p with
  | Some item =>
      match obj_get method item with
      | Some (Some operation) => Some operation
      | _ => None
      end
  | None => None
  end.

(** Some operation of [p] carries the tag [name]. *)
Definition tagUsed (p : Obj PathItem) (name : string) : Prop :=
  ∃ path method operation,
    operationAt p path method = Some operation ∧
    name ∈ operation_tags operation.

(** The steps after the route loop, on the base document. *)
Definition finish (swaggerObject : SwaggerObject) (tags : list Tag)
    (st : Assembly) : SwaggerObject :=
  let schemas := getSchemas (typeRegistry st) in
  let sortedSchema := sortSchemas schemas in
  let swaggerObject :=
    obj_modify "components" (on_schemas (λ s, assign s sortedSchema))
               swaggerObject in
  let paths := paths st in
  let copied :=
    foldl (copyPath paths) (documentPaths swaggerObject, ∅)
          (sort_strings (map_keys paths)) in
  let swaggerObject :=
    obj_modify "paths" (on_paths (λ _, copied.1)) swaggerObject in
  let usedTags := copied.2 in
  obj_set "tags"
    (VTags (sort_with compareTags (filter (isUsed usedTags) tags)))
    swaggerObject.

(** The registry after [for (var modelName in models)]. *)
Definition registerModels (app : Application) (opts : Options) : TypeRegistry :=
  foldl (λ r kv, registerModelDefinition kv.2 r opts)
        newTypeRegistry (models app).

(** [routes.forEach(...)] from a fresh grid. *)
Definition mapRoutes (app : Application) (opts : Options) : M Assembly :=
  forEachM (routeStep (classes app) opts) (routes app)
    {| typeRegistry := registerModels app opts;
       operationIdRegistry := newOperationIdRegistry;
       paths := ∅ |}.

Definition createSwaggerObject (app : Application) (opts : Options)
    : M SwaggerObject :=
  let opts := withDefaults app opts in
  let swaggerObject := generateSwaggerObjectBase opts app in
  let tags := collectTags (classes app) in
  st ← mapRoutes app opts;
  mret (finish swaggerObject tags st).

(** The same application with another route list, class list or model
    catalog. *)
Definition withRoutes (app : Application) (rs : list Route.t) : Application :=
  {| restApiRoot := restApiRoot app; swagger := swagger app;
     routes := rs; classes := classes app; models := models app;
     packageJson := packageJson app |}.

Definition withSwagger (app : Application) (ext : option (Obj Json))
    : Application :=
  {| restApiRoot := restApiRoot app; swagger := ext;
     routes := routes app; classes := classes app; models := models app;
     packageJson := packageJson app |}.

Definition withClasses (app : Application) (cs : list SharedClass.t)
    : Application :=
  {| restApiRoot := restApiRoot app; swagger := swagger app;
     routes := routes app; classes := cs; models := models app;
     packageJson := packageJson app |}.

Definition withModels (app : Application) (ms : Obj Model) : Application :=
  {| restApiRoot := restApiRoot app; swagger := swagger app;
     routes := routes app; classes := classes app; models := ms;
     packageJson := packageJson app |}.

End Generator.

(** ** A concrete set of helpers and some applications *)

Module Sample.

Record ModelDefinition := { model_name : string; model_properties : list string }.

Record OperationObject := { operationId : string; tags : list string }.

Record TagObject := { name : string; description : string }.

(** A free name for [schema]: [n] itself when it is unused or already
    bound to the same schema, otherwise [n] with underscores appended. *)
Fixpoint allocate (fuel : nat) (r : gmap string (list string)) (n : string)
    (schema : list string) : gmap string (list string) :=
  match r !! n with
  | None => <[n := schema]> r
  | Some schema' =>
      if decide (schema' = schema) then r
      else match fuel with
           | O => r
           | S fuel' => allocate fuel' r (String.append n "_") schema
           end
  end.

(** An operation id that was not handed out before. *)
Fixpoint reserve (fuel : nat) (ids : gset string) (candidate : string) : string :=
  if decide (candidate ∈ ids) then
    match fuel with
    | O => candidate
    | S fuel' => reserve fuel' ids (String.append candidate "_")
    end
  else candidate.

(** Modelled from the spec: the helper modules of [lib/specgen] are not
    in this file.  The schema registry binds a model name to its
    structure, keeping one entry for a repeated registration and giving a
    second structure a name of its own; the operation-id registry hands
    out each identifier once; the tag of a class carries its name; the
    operation of a route is tagged with the name of its class and sits
    under the path and verb of the route. *)
#[global] Instance helpers : Helpers := {|
  Model := ModelDefinition;
  Schema := list string;
  Operation := OperationObject;
  Tag := TagObject;
  TypeRegistry := gmap string (list string);
  OperationIdRegistry := gset string;
  newTypeRegistry := ∅;
  getSchemas := λ r, r;
  newOperationIdRegistry := ∅;
  registerModelDefinition := λ m r _,
    allocate (size r) r (model_name m) (model_properties m);
  buildTagFromClass := λ c,
    {| name := SharedClass.name c; description := "" |};
  tag_name := name;
  routeToPathEntry := λ route classDef r ids _,
    let id := reserve (size ids) ids (Route.method route) in
    ((Route.path route, Route.verb route,
      {| operationId := id; tags := [SharedClass.name classDef] |}),
     r, {[ id ]} ∪ ids);
  operation_tags := tags;
  convertText := λ s, s
|}.

Definition noOptions : Options :=
  {| basePath := None; consumes := None; produces := None;
     securitySchemes := Absent; version := None; apiInfo := None;
     host := None |}.

Definition documentedMethod (n : string) : SharedMethod.t :=
  {| SharedMethod.name := n; SharedMethod.documented := true |}.

Definition hiddenMethod (n : string) : SharedMethod.t :=
  {| SharedMethod.name := n; SharedMethod.documented := false |}.

Definition widget : SharedClass.t :=
  {| SharedClass.name := "widget";
     SharedClass.methods := [documentedMethod "find"; documentedMethod "findById"];
     SharedClass._swaggerMethods := None |}.

Definition gadget : SharedClass.t :=
  {| SharedClass.name := "gadget";
     SharedClass.methods := [documentedMethod "find"; documentedMethod "count"];
     SharedClass._swaggerMethods := Some {[ "find" := true ]} |}.

(** A class none of whose methods is documented. *)
Definition internal : SharedClass.t :=
  {| SharedClass.name := "internal";
     SharedClass.methods := [hiddenMethod "reset"];
     SharedClass._swaggerMethods := None |}.

Definition route (m v p : string) : Route.t :=
  {| Route.method := m; Route.documented := true;
     Route.verb := v; Route.path := p |}.

Definition widgetFind := route "widget.find" "get" "/widgets".
Definition widgetFindById := route "widget.prototype.findById" "get" "/widgets/{id}".
Definition widgetList := route "widget.list" "get" "/widgets".
Definition gadgetFind := route "gadget.find" "get" "/gadgets".
Definition gadgetCount := route "gadget.count" "get" "/gadgets/count".
Definition orphan := route "ghost.find" "get" "/ghosts".
Definition undotted := route "status" "get" "/status".
Definition internalReset := route "internal.reset" "post" "/internal/reset".

Definition application (rs : list Route.t) (cs : list SharedClass.t)
    (ext : option (Obj Json)) : Application :=
  {| restApiRoot := None; swagger := ext; routes := rs; classes := cs;
     models := [ ("widget", {| model_name := "widget";
                               model_properties := ["id"; "name"] |});
                 ("gadget", {| model_name := "gadget";
                               model_properties := ["id"] |}) ];
     packageJson := None |}.

(** Two classes with documented methods, one class without, and routes of
    all kinds. *)
Definition shop : Application :=
  application
    [widgetFindById; gadgetFind; orphan; gadgetCount; widgetFind]
    [widget; gadget; internal] None.

(** The extension object of an application that sets a vendor key and
    tries to set the specification version. *)
Definition extension : Obj Json :=
  [ ("x-logo", JObject [("url", JString "/logo.png")]);
    ("openapi", JString "2.0") ].

(** A route left out of the documentation, with an identifier the loop
    could not parse. *)
Definition hidden : Route.t :=
  {| Route.method := "status"; Route.documented := false;
     Route.verb := "get"; Route.path := "/status" |}.

(** A class whose allow-list is empty. *)
Definition sealed : SharedClass.t :=
  {| SharedClass.name := "sealed";
     SharedClass.methods := [documentedMethod "find"];
     SharedClass._swaggerMethods := Some ∅ |}.

Definition sealedFind := route "sealed.find" "get" "/sealed".

(** A route of the class "gadget" whose method is named like a member of
    [Object.prototype]. *)
Definition gadgetToString := route "gadget.toString" "get" "/gadgets/toString".

(** A class named like a member of [Object.prototype]. *)
Definition stringer : SharedClass.t :=
  {| SharedClass.name := "toString";
     SharedClass.methods := [documentedMethod "find"];
     SharedClass._swaggerMethods := None |}.

(** Two models whose names are array indices. *)
Definition numbered : Obj ModelDefinition :=
  [ ("first", {| model_name := "9"; model_properties := ["id"] |});
    ("second", {| model_name := "10"; model_properties := ["id"] |}) ].

(** Options of a caller who sets the base path, the host, a title and
    one security scheme. *)
Definition custom : Options :=
  {| basePath := Some "/v1/"; consumes := None; produces := None;
     securitySchemes :=
       Given [ ("bearer", {| scheme_type := "http"; scheme_in := "header";
                             scheme_name := "authorization" |}) ];
     version := None;
     apiInfo := Some [("title", "Shop"); ("contact", "ops")];
     host := Some "api.example.org" |}.

(** Options of a caller who switches the security schemes off. *)
Definition unsecured : Options :=
  {| basePath := None; consumes := None; produces := None;
     securitySchemes := Falsy; version := None; apiInfo := None;
     host := Some "api.example.org" |}.

(** An extension object that names a host and its own security. *)
Definition hosted : Obj Json :=
  [ ("host", JString "example.org"); ("security", JArray []) ].

End Sample.

(** * Properties *)

(** ** Objects *)

Section ObjFacts.
Context {V : Type}.
Implicit Types (o : Obj V) (k : string) (v : V).

Lemma obj_get_None k o : obj_get k o = None ↔ k ∉ obj_keys o.
Proof.
  unfold obj_keys. induction o as [|[k0 v0] o IH]; simpl.
  - split; [intros _; apply not_elem_of_nil | done].
  - rewrite not_elem_of_cons, <- IH.
    destruct (String.eqb_spec k k0); split; try done.
    + by intros [? _].
    + intros [_ ?]. done.
Qed.

Lemma obj_get_Some k v o : obj_get k o = Some v → (k, v) ∈ o.
Proof.
  induction o as [|[k0 v0] o IH]; simpl; [done|].
  destruct (String.eqb_spec k k0) as [->|].
  - intros [= ->]. apply elem_of_cons. by left.
  - intros. apply elem_of_cons. right. by apply IH.
Qed.

Lemma elem_of_obj_keys k o : k ∈ obj_keys o ↔ is_Some (obj_get k o).
Proof.
  rewrite <- not_eq_None_Some, obj_get_None.
  destruct (decide (k ∈ obj_keys o)); tauto.
Qed.

(** *** Reading after writing *)

Lemma obj_get_replace k k' v o :
  is_Some (obj_get k' o) →
  obj_get k (obj_replace k' v o)
  = if decide (k = k') then Some v else obj_get k o.
Proof.
  induction o as [|[k0 v0] o IH]; simpl.
  - by intros [? ?].
  - destruct (String.eqb_spec k' k0) as [->|Hne]; simpl.
    + intros _. destruct (String.eqb_spec k k0); case_decide; congruence.
    + intros Hk'. destruct (String.eqb_spec k k0) as [->|].
      * case_decide; congruence.
      * by apply IH.
Qed.

Lemma obj_get_insert_index n k k' v o :
  obj_get k' o = None →
  obj_get k (obj_insert_index n k' v o)
  = if decide (k = k') then Some v else obj_get k o.
Proof.
  induction o as [|[k0 v0] o IH]; simpl.
  - intros _. destruct (String.eqb_spec k k'); case_decide; congruence.
  - destruct (String.eqb_spec k' k0) as [->|Hne]; [done|]. intros Hk'.
    destruct (array_index k0) as [n0|]; [destruct (n0 <? n)%N|]; simpl.
    + destruct (String.eqb_spec k k0) as [->|]; [case_decide; congruence|].
      by apply IH.
    + destruct (String.eqb_spec k k'); case_decide; congruence.
    + destruct (String.eqb_spec k k'); case_decide; congruence.
Qed.

Lemma obj_get_snoc k k' v o :
  obj_get k' o = None →
  obj_get k (o ++ [(k', v)])
  = if decide (k = k') then Some v else obj_get k o.
Proof.
  induction o as [|[k0 v0] o IH]; simpl.
  - intros _. destruct (String.eqb_spec k k'); case_decide; congruence.
  - destruct (String.eqb_spec k' k0) as [->|Hne]; [done|]. intros Hk'.
    destruct (String.eqb_spec k k0) as [->|]; [case_decide; congruence|].
    by apply IH.
Qed.

Lemma obj_get_define k k' v o :
  obj_get k (obj_define k' v o)
  = if decide (k = k') then Some v else obj_get k o.
Proof.
  unfold obj_define. destruct (obj_get k' o) as [w|] eqn:Hk'.
  - apply obj_get_replace. by rewrite Hk'.
  - destruct (array_index k').
    + by apply obj_get_insert_index.
    + by apply obj_get_snoc.
Qed.

(** An assignment defines the property, unless it names the prototype. *)
Lemma obj_set_cases k v o :
  obj_set k v o = obj_define k v o ∨
  (k = "__proto__" ∧ obj_get k o = None ∧ obj_set k v o = o).
Proof.
  unfold obj_set. destruct (obj_get k o); [by left|].
  destruct (String.eqb_spec k "__proto__"); [by right|by left].
Qed.

Lemma obj_set_define k v o :
  k ≠ "__proto__" → obj_set k v o = obj_define k v o.
Proof. intros. by destruct (obj_set_cases k v o) as [|[? _]]. Qed.

Lemma obj_set_proto v o :
  obj_get "__proto__" o = None → obj_set "__proto__" v o = o.
Proof. unfold obj_set. by intros ->. Qed.

Lemma obj_get_set k k' v o :
  k' ≠ "__proto__" →
  obj_get k (obj_set k' v o) = if decide (k = k') then Some v else obj_get k o.
Proof. intros. rewrite obj_set_define by done. apply obj_get_define. Qed.

Lemma obj_get_set_eq k v o :
  k ≠ "__proto__" → obj_get k (obj_set k v o) = Some v.
Proof. intros. rewrite obj_get_set by done. by case_decide. Qed.

Lemma obj_get_set_ne k k' v o :
  k ≠ k' → obj_get k (obj_set k' v o) = obj_get k o.
Proof.
  intros. destruct (obj_set_cases k' v o) as [->|(_ & _ & ->)]; [|done].
  rewrite obj_get_define. by case_decide.
Qed.

Lemma obj_get_set_inv k k' v w o :
  obj_get k (obj_set k' v o) = Some w →
  (k = k' ∧ w = v) ∨ obj_get k o = Some w.
Proof.
  destruct (obj_set_cases k' v o) as [->|(_ & _ & ->)]; [|by right].
  rewrite obj_get_define. case_decide; [|by right].
  intros [= <-]. by left.
Qed.

Lemma obj_set_no_proto k v o :
  obj_get "__proto__" o = None → obj_get "__proto__" (obj_set k v o) = None.
Proof.
  intros Ho. destruct (decide (k = "__proto__")) as [->|Hne].
  - by rewrite obj_set_proto.
  - by rewrite obj_get_set_ne.
Qed.

Lemma obj_get_modify k k' (f : V → V) o :
  obj_get k (obj_modify k' f o)
  = if decide (k = k') then f <$> obj_get k o else obj_get k o.
Proof.
  unfold obj_modify. induction o as [|[k0 v0] o IH]; simpl.
  - by case_decide.
  - destruct (String.eqb_spec k0 k') as [->|Hne]; simpl.
    + destruct (String.eqb_spec k k') as [->|]; case_decide; try done.
    + destruct (String.eqb_spec k k0) as [->|]; [by case_decide|done].
Qed.

(** *** The keys after writing *)

Lemma obj_keys_replace k v o : obj_keys (obj_replace k v o) = obj_keys o.
Proof.
  unfold obj_keys. induction o as [|[k0 v0] o IH]; simpl; [done|].
  destruct (String.eqb_spec k k0) as [->|]; simpl; [done|]. by f_equal.
Qed.

Lemma obj_keys_insert_index n k v o :
  obj_keys (obj_insert_index n k v o) ≡ₚ k :: obj_keys o.
Proof.
  unfold obj_keys. induction o as [|[k0 v0] o IH]; simpl; [done|].
  destruct (array_index k0) as [n0|]; [destruct (n0 <? n)%N|]; simpl; [|done..].
  rewrite IH. apply Permutation_swap.
Qed.

Lemma obj_keys_define_old k v o :
  is_Some (obj_get k o) → obj_keys (obj_define k v o) = obj_keys o.
Proof.
  intros [w Hw]. unfold obj_define. rewrite Hw. apply obj_keys_replace.
Qed.

Lemma obj_keys_define_new k v o :
  obj_get k o = None → obj_keys (obj_define k v o) ≡ₚ k :: obj_keys o.
Proof.
  intros Hk. unfold obj_define. rewrite Hk. destruct (array_index k).
  - apply obj_keys_insert_index.
  - unfold obj_keys. rewrite fmap_app. simpl.
    by rewrite Permutation_app_comm.
Qed.

Lemma elem_of_obj_keys_define k k' v o :
  k' ∈ obj_keys (obj_define k v o) ↔ k' = k ∨ k' ∈ obj_keys o.
Proof.
  rewrite !elem_of_obj_keys, obj_get_define. case_decide.
  - split; [by left|by eexists].
  - split; [by right|]. by intros [?|?].
Qed.

Lemma elem_of_obj_keys_set k k' v o :
  k' ∈ obj_keys (obj_set k v o) → k' = k ∨ k' ∈ obj_keys o.
Proof.
  destruct (obj_set_cases k v o) as [->|(_ & _ & ->)]; [|by right].
  by rewrite elem_of_obj_keys_define.
Qed.

Lemma elem_of_obj_keys_set_iff k k' v o :
  obj_get "__proto__" o = None →
  k' ∈ obj_keys (obj_set k v o) ↔ (k' = k ∧ k ≠ "__proto__") ∨ k' ∈ obj_keys o.
Proof.
  intros Hproto. destruct (decide (k = "__proto__")) as [->|Hne].
  - rewrite obj_set_proto by done. split; [by right|]. by intros [[_ ?]|?].
  - rewrite obj_set_define, elem_of_obj_keys_define by done.
    split; (intros [?|?]; [left|right]); by try split; try tauto.
Qed.

Lemma obj_define_NoDup k v o :
  NoDup (obj_keys o) → NoDup (obj_keys (obj_define k v o)).
Proof.
  intros Hnd. destruct (obj_get k o) as [w|] eqn:Hk.
  - rewrite obj_keys_define_old by (by rewrite Hk). done.
  - rewrite obj_keys_define_new by done. apply NoDup_cons.
    split; [by apply obj_get_None|done].
Qed.

Lemma obj_set_NoDup k v o :
  NoDup (obj_keys o) → NoDup (obj_keys (obj_set k v o)).
Proof.
  destruct (obj_set_cases k v o) as [->|(_ & _ & ->)]; [|done].
  apply obj_define_NoDup.
Qed.

(** *** The order of the keys *)

(** A key that is not an array index is enumerated after all the others. *)
Lemma index_first_name a b : array_index b = None → index_first a b.
Proof. unfold index_first. intros ->. by destruct (array_index a). Qed.

Lemma names_insert_index n k v o :
  array_index k = Some n →
  names (obj_keys (obj_insert_index n k v o)) = names (obj_keys o).
Proof.
  intros Hk. unfold names, obj_keys.
  induction o as [|[k0 v0] o IH]; simpl.
  - rewrite filter_cons, decide_False; [done|]. by rewrite Hk.
  - destruct (array_index k0) as [n0|] eqn:Hk0; [destruct (n0 <? n)%N|]; simpl.
    + rewrite !filter_cons. rewrite !decide_False by (by rewrite Hk0). exact IH.
    + rewrite (filter_cons _ k), decide_False; [done|]. by rewrite Hk.
    + rewrite (filter_cons _ k), decide_False; [done|]. by rewrite Hk.
Qed.

(** The keys that are not array indices stay in the order of their
    creation. *)
Lemma names_define k v o :
  names (obj_keys (obj_define k v o)) = names (obj_keys o) ∨
  (names (obj_keys (obj_define k v o)) = names (obj_keys o) ++ [k] ∧
   obj_get k o = None ∧ array_index k = None).
Proof.
  destruct (obj_get k o) as [w|] eqn:Hk.
  - left. rewrite obj_keys_define_old by (by rewrite Hk). done.
  - unfold obj_define. rewrite Hk. destruct (array_index k) as [n|] eqn:Hn.
    + left. by apply names_insert_index.
    + right. split; [|done]. unfold names, obj_keys.
      rewrite fmap_app, filter_app. simpl.
      by rewrite filter_cons, decide_True.
Qed.

Lemma names_set k v o :
  names (obj_keys (obj_set k v o)) = names (obj_keys o) ∨
  (names (obj_keys (obj_set k v o)) = names (obj_keys o) ++ [k] ∧
   obj_get k o = None ∧ array_index k = None).
Proof.
  destruct (obj_set_cases k v o) as [->|(_ & _ & ->)]; [|by left].
  apply names_define.
Qed.

Lemma names_define_prefix k v o :
  names (obj_keys o) `prefix_of` names (obj_keys (obj_define k v o)).
Proof.
  destruct (names_define k v o) as [->|[-> _]]; [done|].
  by apply prefix_app_r.
Qed.

Lemma names_set_prefix k v o :
  names (obj_keys o) `prefix_of` names (obj_keys (obj_set k v o)).
Proof.
  destruct (names_set k v o) as [->|[-> _]]; [done|].
  by apply prefix_app_r.
Qed.

Lemma insert_index_first n k v o :
  array_index k = Some n →
  StronglySorted index_first (obj_keys o) →
  StronglySorted index_first (obj_keys (obj_insert_index n k v o)).
Proof.
  intros Hk. induction o as [|[k0 v0] o IH]; simpl.
  - intros _. repeat constructor.
  - intros [Hall Hs]%StronglySorted_cons.
    change (Forall (index_first k0) (obj_keys o)) in Hall.
    change (StronglySorted index_first (obj_keys o)) in Hs.
    destruct (array_index k0) as [n0|] eqn:Hk0;
      [destruct (N.ltb_spec n0 n) as [Hlt|Hge]|].
    + change (StronglySorted index_first
                (k0 :: obj_keys (obj_insert_index n k v o))).
      apply StronglySorted_cons. split; [|by apply IH].
      rewrite obj_keys_insert_index. constructor; [|done].
      unfold index_first. rewrite Hk0, Hk. lia.
    + change (StronglySorted index_first (k :: k0 :: obj_keys o)).
      apply StronglySorted_cons. split; [|by apply StronglySorted_cons].
      constructor.
      * unfold index_first. by rewrite Hk, Hk0.
      * eapply Forall_impl; [exact Hall|]. intros x. unfold index_first.
        rewrite Hk0, Hk. destruct (array_index x); [lia|done].
    + change (StronglySorted index_first (k :: k0 :: obj_keys o)).
      apply StronglySorted_cons. split; [|by apply StronglySorted_cons].
      constructor.
      * unfold index_first. by rewrite Hk, Hk0.
      * eapply Forall_impl; [exact Hall|]. intros x. unfold index_first.
        rewrite Hk0, Hk. by destruct (array_index x).
Qed.

(** Writing keeps the array indices in front, in ascending order. *)
Lemma obj_define_index_first k v o :
  StronglySorted index_first (obj_keys o) →
  StronglySorted index_first (obj_keys (obj_define k v o)).
Proof.
  intros Hs. destruct (obj_get k o) as [w|] eqn:Hk.
  - rewrite obj_keys_define_old by (by rewrite Hk). done.
  - unfold obj_define. rewrite Hk. destruct (array_index k) as [n|] eqn:Hn.
    + by apply insert_index_first.
    + unfold obj_keys. rewrite fmap_app. apply StronglySorted_app_2.
      * intros x1 x2 _ ->%list_elem_of_singleton. by apply index_first_name.
      * exact Hs.
      * repeat constructor.
Qed.

Lemma obj_set_index_first k v o :
  StronglySorted index_first (obj_keys o) →
  StronglySorted index_first (obj_keys (obj_set k v o)).
Proof.
  destruct (obj_set_cases k v o) as [->|(_ & _ & ->)]; [|done].
  apply obj_define_index_first.
Qed.

(** *** Objects filled key by key *)

(** [filled o l o']: the object [o'] is [o] after one write, or none, for
    each key of [l] in turn. *)
Inductive filled : Obj V → list string → Obj V → Prop :=
  | filled_nil o : filled o [] o
  | filled_define o k v l o' :
      filled (obj_define k v o) l o' → filled o (k :: l) o'
  | filled_skip o k l o' : filled o l o' → filled o (k :: l) o'.

Lemma filled_set o k v l o' :
  filled (obj_set k v o) l o' → filled o (k :: l) o'.
Proof.
  destruct (obj_set_cases k v o) as [->|(_ & _ & ->)].
  - apply filled_define.
  - apply filled_skip.
Qed.

Lemma filled_NoDup o l o' :
  filled o l o' → NoDup (obj_keys o) → NoDup (obj_keys o').
Proof. induction 1; auto using obj_define_NoDup. Qed.

Lemma filled_index_first o l o' :
  filled o l o' →
  StronglySorted index_first (obj_keys o) →
  StronglySorted index_first (obj_keys o').
Proof. induction 1; auto using obj_define_index_first. Qed.

Lemma filled_elem_of o l o' k :
  filled o l o' → k ∈ obj_keys o' → k ∈ obj_keys o ∨ k ∈ l.
Proof.
  induction 1 as [o|o k0 v l o' _ IH|o k0 l o' _ IH]; intros Hk.
  - by left.
  - destruct (IH Hk) as [Hin|Hin].
    + apply elem_of_obj_keys_define in Hin as [->|Hin]; [|by left].
      right. apply elem_of_cons. by left.
    + right. apply elem_of_cons. by right.
  - destruct (IH Hk) as [Hin|Hin]; [by left|].
    right. apply elem_of_cons. by right.
Qed.

(** When the keys that are not array indices are written in ascending
    order, they are enumerated in ascending order. *)
Lemma filled_names_sorted o l o' :
  filled o l o' →
  StronglySorted String.le (names (obj_keys o) ++ names l) →
  StronglySorted String.le (names (obj_keys o')).
Proof.
  induction 1 as [o|o k v l o' _ IH|o k l o' _ IH]; intros Hs.
  - unfold names at 2 in Hs. by rewrite filter_nil, app_nil_r in Hs.
  - apply IH. unfold names at 2 in Hs. rewrite filter_cons in Hs.
    fold (names l) in Hs.
    destruct (names_define k v o) as [->|(-> & _ & Hk)].
    + case_decide; [|done].
      apply StronglySorted_app in Hs as (Hle & Hs1 & [_ Hs2]%StronglySorted_cons).
      apply StronglySorted_app_2; [|done..].
      intros x1 x2 Hx1 Hx2. apply Hle; [done|]. apply elem_of_cons. by right.
    + rewrite decide_True in Hs by done. by rewrite <- app_assoc.
  - apply IH. unfold names at 2 in Hs. rewrite filter_cons in Hs.
    fold (names l) in Hs. case_decide; [|done].
    apply StronglySorted_app in Hs as (Hle & Hs1 & [_ Hs2]%StronglySorted_cons).
    apply StronglySorted_app_2; [|done..].
    intros x1 x2 Hx1 Hx2. apply Hle; [done|]. apply elem_of_cons. by right.
Qed.

End ObjFacts.

(** ** Loops that log and may throw *)

Section LoopFacts.
Context {A S : Type} (body : S → A → M S).

Lemma forEachM_app l1 l2 s :
  forEachM body (l1 ++ l2) s = (forEachM body l1 s ≫= forEachM body l2).
Proof.
  revert s. induction l1 as [|x l1 IH]; intros s; simpl.
  - unfold mret, M_ret, mbind, M_bind. simpl. by destruct (forEachM body l2 s).
  - destruct (body s x) as [l [e|s']] eqn:Hx; [done|].
    unfold mbind, M_bind at 1. rewrite IH.
    unfold mbind, M_bind.
    destruct (forEachM body l1 s') as [l' [e|s'']]; simpl; [done|].
    by rewrite app_assoc.
Qed.

(** A property of the state that every completed step keeps holds when
    the loop completes. *)
Lemma forEachM_invariant (P : S → Prop) l s s' :
  (∀ x t t', x ∈ l → P t → outcome (body t x) = inr t' → P t') →
  P s → outcome (forEachM body l s) = inr s' → P s'.
Proof.
  revert s. induction l as [|x l IH]; intros s Hstep Hs; simpl.
  - by intros [= <-].
  - destruct (body s x) as [d [e|t]] eqn:Hx; [done|].
    unfold mbind, M_bind, outcome. simpl. intros Hrun.
    apply (IH t); [| |done].
    + intros y t1 t2 Hy. apply Hstep. apply elem_of_cons. by right.
    + apply (Hstep x s t); [apply elem_of_cons; by left|done|].
      unfold outcome. by rewrite Hx.
Qed.

(** A step that throws in every state makes the loop throw. *)
Lemma forEachM_throws l x e s :
  x ∈ l → (∀ t, outcome (body t x) = inl e) →
  ∃ e', outcome (forEachM body l s) = inl e'.
Proof.
  intros Hin Hx. revert s. induction l as [|y l IH]; intros s.
  - by apply elem_of_nil in Hin.
  - simpl. destruct (body s y) as [d [e'|t]] eqn:Hy.
    + by exists e'.
    + unfold mbind, M_bind, outcome. simpl.
      apply elem_of_cons in Hin as [->|Hin].
      * specialize (Hx s). unfold outcome in Hx. rewrite Hy in Hx. done.
      * apply IH. done.
Qed.

(** Steps that all complete make the loop complete. *)
Lemma forEachM_returns l s :
  (∀ x t, x ∈ l → ∃ t', outcome (body t x) = inr t') →
  ∃ s', outcome (forEachM body l s) = inr s'.
Proof.
  revert s. induction l as [|x l IH]; intros s Hall; simpl.
  - by exists s.
  - destruct (Hall x s) as [t Ht]; [apply elem_of_cons; by left|].
    destruct (body s x) as [d [e|t0]] eqn:Hx; [done|].
    unfold mbind, M_bind, outcome. simpl. apply IH.
    intros y t1 Hy. apply Hall. apply elem_of_cons. by right.
Qed.

(** A step that only logs [d] can be taken out of the loop: the outcome
    is the same, and the log loses exactly [d] where the step stood. *)
Lemma forEachM_skip pre x post d s :
  (∀ t, body t x = (d, inr t)) →
  outcome (forEachM body (pre ++ x :: post) s)
  = outcome (forEachM body (pre ++ post) s) ∧
  ∀ s', outcome (forEachM body (pre ++ post) s) = inr s' →
    ∃ l1 l2,
      diagnostics (forEachM body (pre ++ post) s) = l1 ++ l2 ∧
      diagnostics (forEachM body (pre ++ x :: post) s) = l1 ++ d ++ l2.
Proof.
  intros Hx. rewrite !forEachM_app. simpl.
  destruct (forEachM body pre s) as [l [e|t]] eqn:Hpre.
  - split; [done|]. intros s'. unfold outcome, mbind, M_bind. done.
  - unfold mbind at 1 3 4 5 6, M_bind. simpl. rewrite Hx.
    unfold mbind, M_bind. simpl.
    destruct (forEachM body post t) as [l' r] eqn:Hpost. simpl.
    unfold outcome, diagnostics. destruct r as [e|s'']; simpl.
    + split; [done|]. done.
    + split; [done|]. intros s' _. by exists l, l'.
Qed.

End LoopFacts.

(** ** Parsing the compound method identifier *)

Lemma split_first_dot_no_dot s :
  "."%char ∉ list_ascii_of_string s → split_first_dot s = None.
Proof.
  induction s as [|c s IH]; simpl; [done|].
  rewrite not_elem_of_cons. intros [Hc Hs].
  destruct (Ascii.eqb_spec c "."); [congruence|]. by rewrite IH.
Qed.

Lemma parseMethod_no_dot s :
  "."%char ∉ list_ascii_of_string s → parseMethod s = None.
Proof.
  intros Hs. unfold parseMethod, exec_class_method.
  by rewrite split_first_dot_no_dot.
Qed.

Lemma split_first_dot_append c rest :
  "."%char ∉ list_ascii_of_string c →
  split_first_dot (String.append c (String "." rest)) = Some (c, rest).
Proof.
  induction c as [|a c IH]; simpl.
  - done.
  - rewrite not_elem_of_cons. intros [Ha Hc].
    destruct (Ascii.eqb_spec a "."); [congruence|]. by rewrite IH.
Qed.

(** The identifier of a static method: "Class.method". *)
Lemma parseMethod_static className methodName :
  className ≠ "" →
  "."%char ∉ list_ascii_of_string className →
  has_line_terminator methodName = false →
  parseMethod (String.append className (String "." methodName))
  = Some (className, remove_first "prototype." methodName).
Proof.
  intros Hne Hdot Hline. unfold parseMethod, exec_class_method.
  rewrite split_first_dot_append by done. rewrite Hline.
  destruct (String.eqb_spec className ""); [done|]. done.
Qed.

(** The identifier of an instance method: "Class.prototype.method". *)
Lemma parseMethod_prototype className methodName :
  className ≠ "" →
  "."%char ∉ list_ascii_of_string className →
  has_line_terminator methodName = false →
  parseMethod (String.append className
                 (String "." (String.append "prototype." methodName)))
  = Some (className, methodName).
Proof.
  intros Hne Hdot Hline. by rewrite parseMethod_static.
Qed.

(** ** The route loop *)

Section RouteFacts.
Context `{Helpers}.
Implicit Types (app : Application) (opts : Options) (st : Assembly)
  (r : Route.t) (classDef : SharedClass.t).

Lemma findClass_None cs className :
  Forall (λ c, SharedClass.name c ≠ className) cs → findClass cs className = None.
Proof.
  unfold findClass. induction 1 as [|c cs Hc _ IH]; [done|].
  rewrite filter_cons. by case_decide.
Qed.

Lemma findClass_Some cs className classDef :
  findClass cs className = Some classDef →
  classDef ∈ cs ∧ SharedClass.name classDef = className.
Proof.
  unfold findClass. intros Hhd.
  assert (classDef ∈ filter (λ item, SharedClass.name item = className) cs) as Hin.
  { destruct (filter _ cs) as [|c l]; simplify_eq/=. apply elem_of_cons. by left. }
  by apply list_elem_of_filter in Hin as [? ?].
Qed.

Lemma routeStep_undocumented cs opts st r :
  Route.documented r = false → routeStep cs opts st r = mret st.
Proof. unfold routeStep. by intros ->. Qed.

Lemma routeStep_unparsed cs opts st r :
  Route.documented r = true → parseMethod (Route.method r) = None →
  routeStep cs opts st r = throw TypeError.
Proof. unfold routeStep. by intros -> ->. Qed.

Lemma routeStep_orphan cs opts st r className methodName :
  Route.documented r = true →
  parseMethod (Route.method r) = Some (className, methodName) →
  findClass cs className = None →
  routeStep cs opts st r = ([RouteWithNoClass r], inr st).
Proof. unfold routeStep. by intros -> -> ->. Qed.

Lemma routeStep_class cs opts st r className methodName classDef :
  Route.documented r = true →
  parseMethod (Route.method r) = Some (className, methodName) →
  findClass cs className = Some classDef →
  routeStep cs opts st r
  = if filteredOut classDef methodName then mret st
    else mret (addRouteToSwaggerPaths r classDef st opts).
Proof. unfold routeStep. by intros -> -> ->. Qed.

(** A step that completes either leaves the state alone or hands the
    route to the route mapper. *)
Lemma routeStep_inr cs opts st r st' :
  outcome (routeStep cs opts st r) = inr st' →
  st' = st ∨
  ∃ classDef, delegated cs r classDef ∧
              st' = addRouteToSwaggerPaths r classDef st opts.
Proof.
  unfold routeStep, delegated.
  destruct (Route.documented r); simpl; [|intros [= <-]; by left].
  destruct (parseMethod _) as [[className methodName]|]; [|done].
  destruct (findClass cs className) as [classDef|] eqn:Hc; simpl.
  - destruct (filteredOut _ _) eqn:Hf; simpl; intros [= <-]; [by left|].
    right. exists classDef. split; [|done]. split; [done|].
    by exists className, methodName.
  - intros [= <-]. by left.
Qed.

Lemma routeStep_returns cs opts st r :
  (Route.documented r = true → is_Some (parseMethod (Route.method r))) →
  ∃ st', outcome (routeStep cs opts st r) = inr st'.
Proof.
  unfold routeStep. intros Hparse.
  destruct (Route.documented r); simpl; [|by eexists].
  destruct Hparse as [[className methodName] ->]; [done|].
  destruct (findClass cs className) as [classDef|]; simpl; [|by eexists].
  destruct (filteredOut _ _); by eexists.
Qed.

Lemma createSwaggerObject_outcome app opts :
  outcome (createSwaggerObject app opts)
  = match outcome (mapRoutes app (withDefaults app opts)) with
    | inl e => inl e
    | inr st =>
        inr (finish (generateSwaggerObjectBase (withDefaults app opts) app)
               (collectTags (classes app)) st)
    end.
Proof.
  unfold createSwaggerObject, outcome, mbind, M_bind.
  by destruct (mapRoutes _ _) as [l [e|st]].
Qed.

Lemma createSwaggerObject_diagnostics app opts :
  diagnostics (createSwaggerObject app opts)
  = diagnostics (mapRoutes app (withDefaults app opts)).
Proof.
  unfold createSwaggerObject, diagnostics, mbind, M_bind.
  destruct (mapRoutes _ _) as [l [e|st]]; simpl; [done|].
  by rewrite app_nil_r.
Qed.

(** The assembly returns a document as soon as the identifier of every
    documented route has the form the loop expects. *)
Lemma createSwaggerObject_returns app opts :
  (∀ r, r ∈ routes app → Route.documented r = true →
        is_Some (parseMethod (Route.method r))) →
  ∃ doc, outcome (createSwaggerObject app opts) = inr doc.
Proof.
  intros Hparse. rewrite createSwaggerObject_outcome. unfold mapRoutes.
  edestruct (forEachM_returns
               (routeStep (classes app) (withDefaults app opts)) (routes app))
    as [st ->]; [|by eexists].
  intros r t Hr. apply routeStep_returns. by apply Hparse.
Qed.

End RouteFacts.

(** ** Routes that are skipped, filtered or refused *)

Section RouteClaims.
Context `{Helpers}.
Implicit Types (app : Application) (opts : Options) (st : Assembly)
  (r : Route.t) (classDef : SharedClass.t).

Lemma mapRoutes_withRoutes app rs opts :
  mapRoutes (withRoutes app rs) opts
  = forEachM (routeStep (classes app) opts) rs
      {| typeRegistry := registerModels app opts;
         operationIdRegistry := newOperationIdRegistry;
         paths := ∅ |}.
Proof. done. Qed.

(** A step that changes nothing and logs nothing can be dropped. *)
Lemma forEachM_noop {A S} (body : S → A → M S) pre x post s :
  (∀ t, body t x = mret t) →
  forEachM body (pre ++ x :: post) s = forEachM body (pre ++ post) s.
Proof.
  intros Hx. revert s. induction pre as [|y pre IH]; intros s; simpl.
  - rewrite Hx. unfold mret, M_ret, mbind, M_bind. simpl.
    by destruct (forEachM body post s).
  - destruct (body s y) as [l [e|t]]; [done|].
    unfold mbind, M_bind. by rewrite IH.
Qed.


(** C10. A documented route whose identifier contains no dot makes the
    assembly throw a [TypeError]: no document is returned, whatever the
    other routes are. *)
Theorem undotted_identifier_throws app opts r :
  r ∈ routes app →
  Route.documented r = true →
  "."%char ∉ list_ascii_of_string (Route.method r) →
  outcome (createSwaggerObject app opts) = inl TypeError.
Proof.
  intros Hr Hd Hdot. rewrite createSwaggerObject_outcome. unfold mapRoutes.
  edestruct (forEachM_throws
               (routeStep (classes app) (withDefaults app opts))
               (routes app) r TypeError) as [e ->]; [done| |by destruct e].
  intros t. rewrite routeStep_unparsed; [done..|].
  by apply parseMethod_no_dot.
Qed.

(** C5. A documented route whose class name is the name of no class is
    reported and skipped: with the route in the list the assembly ends as
    it does without it (same document, or same exception raised by
    another route), the log gains the diagnostic of the route at its
    place, and a document is returned whenever the other documented
    routes carry well-formed identifiers. *)
Theorem orphan_route_reported_and_skipped app opts pre r post className methodName :
  Route.documented r = true →
  parseMethod (Route.method r) = Some (className, methodName) →
  Forall (λ c, SharedClass.name c ≠ className) (classes app) →
  outcome (createSwaggerObject (withRoutes app (pre ++ r :: post)) opts)
  = outcome (createSwaggerObject (withRoutes app (pre ++ post)) opts) ∧
  (∀ doc,
     outcome (createSwaggerObject (withRoutes app (pre ++ post)) opts) = inr doc →
     ∃ l1 l2,
       diagnostics (createSwaggerObject (withRoutes app (pre ++ post)) opts)
       = l1 ++ l2 ∧
       diagnostics (createSwaggerObject (withRoutes app (pre ++ r :: post)) opts)
       = l1 ++ RouteWithNoClass r :: l2) ∧
  ((∀ x, x ∈ pre ++ post → Route.documented x = true →
         is_Some (parseMethod (Route.method x))) →
   ∃ doc,
     outcome (createSwaggerObject (withRoutes app (pre ++ r :: post)) opts)
     = inr doc).
Proof.
  intros Hd Hparse Hnone.
  pose proof (findClass_None _ _ Hnone) as Hfind.
  set (opts' := withDefaults app opts).
  set (st0 := {| typeRegistry := registerModels app opts';
                 operationIdRegistry := newOperationIdRegistry;
                 paths := ∅ |}).
  destruct (forEachM_skip (routeStep (classes app) opts') pre r post
              [RouteWithNoClass r] st0) as [Hout Hlog].
  { intros t. by eapply routeStep_orphan. }
  split; [|split].
  - rewrite !createSwaggerObject_outcome.
    change (withDefaults (withRoutes app _) opts) with opts'.
    rewrite !mapRoutes_withRoutes. fold st0.
    change (classes (withRoutes app ?rs)) with (classes app).
    by rewrite Hout.
  - intros doc. rewrite !createSwaggerObject_outcome, !createSwaggerObject_diagnostics.
    change (withDefaults (withRoutes app _) opts) with opts'.
    rewrite !mapRoutes_withRoutes. fold st0.
    destruct (outcome (forEachM _ (pre ++ post) st0)) as [e|st] eqn:Hrun; [done|].
    intros _. by apply (Hlog st).
  - intros Hall. apply createSwaggerObject_returns. simpl.
    intros x Hx Hdx. apply elem_of_app in Hx as [Hx|Hx].
    + apply Hall; [|done]. apply elem_of_app. by left.
    + apply elem_of_cons in Hx as [->|Hx]; [by rewrite Hparse|].
      apply Hall; [|done]. apply elem_of_app. by right.
Qed.

End RouteClaims.

(** ** The base document *)

Section BaseFacts.
Context `{Helpers}.
Implicit Types (app : Application) (opts : Options)
  (d src : SwaggerObject) (k : string) (v : Value).

Lemma defaults_cons d k v src :
  defaults d ((k, v) :: src)
  = defaults (match obj_get k d with
              | None | Some VUndefined => obj_set k v d
              | Some _ => d
              end) src.
Proof. done. Qed.

(** A defined property of the destination is kept. *)
Lemma defaults_keep k v d src :
  obj_get k d = Some v → v ≠ VUndefined → obj_get k (defaults d src) = Some v.
Proof.
  revert d. induction src as [|[k0 v0] src IH]; intros d Hk Hv; [done|].
  rewrite defaults_cons. apply IH; [|done].
  destruct (decide (k = k0)) as [<-|Hne].
  - rewrite Hk. by destruct v.
  - destruct (obj_get k0 d) as [[]|]; by rewrite ?obj_get_set_ne.
Qed.

(** A property missing from the destination is taken from the source. *)
Lemma defaults_take k v d src :
  k ≠ "__proto__" →
  undefinedAt k d → obj_get k src = Some v → v ≠ VUndefined →
  obj_get k (defaults d src) = Some v.
Proof.
  intros Hproto.
  revert d. induction src as [|[k0 v0] src IH]; intros d Hk Hsrc Hv; [done|].
  rewrite defaults_cons. simpl in Hsrc.
  destruct (String.eqb_spec k k0) as [<-|Hne].
  - injection Hsrc as ->. apply defaults_keep; [|done].
    destruct Hk as [-> | ->]; by rewrite obj_get_set_eq.
  - apply IH; [|done..].
    unfold undefinedAt.
    destruct (obj_get k0 d) as [[]|]; by rewrite ?obj_get_set_ne.
Qed.

(** A key the source does not have is left as it is. *)
Lemma defaults_miss k d src :
  obj_get k src = None → obj_get k (defaults d src) = obj_get k d.
Proof.
  revert d. induction src as [|[k0 v0] src IH]; intros d Hsrc; [done|].
  rewrite defaults_cons. simpl in Hsrc.
  destruct (String.eqb_spec k k0) as [<-|Hne]; [done|].
  rewrite IH by done.
  destruct (obj_get k0 d) as [[]|]; by rewrite ?obj_get_set_ne.
Qed.

Lemma obj_get_fmap {A B} (f : A → B) k (o : Obj A) :
  obj_get k ((λ kv, (kv.1, f kv.2)) <$> o) = f <$> obj_get k o.
Proof.
  induction o as [|[k0 a] o IH]; simpl; [done|].
  by destruct (String.eqb_spec k k0).
Qed.

Lemma base_paths opts app :
  obj_get "paths" (generateSwaggerObjectBase opts app) = Some (VPaths []).
Proof. unfold generateSwaggerObjectBase. by repeat (apply defaults_keep; [|done]). Qed.

Lemma base_tags opts app :
  obj_get "tags" (generateSwaggerObjectBase opts app) = Some (VTags []).
Proof. unfold generateSwaggerObjectBase. by repeat (apply defaults_keep; [|done]). Qed.

Lemma base_components opts app :
  obj_get "components" (generateSwaggerObjectBase opts app)
  = Some (VComponents {| schemas := [];
                         components_securitySchemes := securitySchemes opts |}).
Proof. unfold generateSwaggerObjectBase. by repeat (apply defaults_keep; [|done]). Qed.

Lemma base_openapi opts app :
  obj_get "openapi" (generateSwaggerObjectBase opts app) = Some (VString "3.0.1").
Proof. unfold generateSwaggerObjectBase. by repeat (apply defaults_keep; [|done]). Qed.

Lemma base_security opts app schemes :
  securitySchemes opts = Given schemes →
  obj_get "security" (generateSwaggerObjectBase opts app) = Some (makeSecurity opts).
Proof.
  intros Hs. unfold generateSwaggerObjectBase.
  by repeat (apply defaults_keep; [|unfold makeSecurity; by rewrite Hs]).
Qed.

(** A property of the extension object reaches the base document when
    the generator has not defined that key itself. *)
Lemma base_extension opts app ext k j :
  swagger app = Some ext → obj_get k ext = Some j →
  k ∉ coreKeys → k ≠ "__proto__" →
  (k = "security" → securitySchemes opts = Falsy) →
  obj_get k (generateSwaggerObjectBase opts app) = Some (VJson j).
Proof.
  intros Hext Hk Hcore Hproto Hsec. unfold generateSwaggerObjectBase.
  apply defaults_keep; [|done]. rewrite Hext. simpl.
  apply defaults_take; [done| | by rewrite obj_get_fmap, Hk | done].
  unfold coreKeys in Hcore. rewrite !not_elem_of_cons in Hcore.
  destruct Hcore as (? & ? & ? & ? & ? & ? & _).
  unfold undefinedAt. simpl.
  repeat (match goal with
          | |- context [String.eqb k ?s] =>
              destruct (String.eqb_spec k s) as [->|]; [done|]
          end).
  destruct (String.eqb_spec k "security") as [Hs|]; [|by left].
  right. unfold makeSecurity. by rewrite (Hsec Hs).
Qed.

(** The steps after the route loop rewrite three properties only. *)
Lemma finish_other d tags st k :
  k ≠ "tags" → k ≠ "paths" → k ≠ "components" →
  obj_get k (finish d tags st) = obj_get k d.
Proof.
  intros. unfold finish. rewrite obj_get_set_ne by done.
  rewrite !obj_get_modify. by repeat case_decide.
Qed.

(** The path items of the finished document and the tags they use. *)
Lemma finish_paths base tags st :
  obj_get "paths" base = Some (VPaths []) →
  obj_get "paths" (finish base tags st)
  = Some (VPaths (foldl (copyPath (paths st)) ([], ∅)
                        (sort_strings (map_keys (paths st)))).1).
Proof.
  intros Hbase. unfold finish. cbv zeta.
  rewrite obj_get_set_ne by done. rewrite obj_get_modify.
  rewrite decide_True by done.
  unfold documentPaths. rewrite !obj_get_modify.
  rewrite (decide_False (P := "paths" = "components")) by done.
  by rewrite Hbase.
Qed.

Lemma finish_tags base tags st :
  obj_get "paths" base = Some (VPaths []) →
  obj_get "tags" (finish base tags st)
  = Some (VTags (sort_with compareTags
                   (filter (isUsed (foldl (copyPath (paths st)) ([], ∅)
                                      (sort_strings (map_keys (paths st)))).2)
                           tags))).
Proof.
  intros Hbase. unfold finish. cbv zeta. rewrite obj_get_set_eq by done.
  unfold documentPaths. rewrite !obj_get_modify.
  rewrite (decide_False (P := "paths" = "components")) by done.
  by rewrite Hbase.
Qed.

Lemma finish_components base tags st c :
  obj_get "components" base = Some (VComponents c) →
  obj_get "components" (finish base tags st)
  = Some (VComponents
            {| schemas := assign (schemas c)
                            (sortSchemas (getSchemas (typeRegistry st)));
               components_securitySchemes := components_securitySchemes c |}).
Proof.
  intros Hbase. unfold finish. cbv zeta.
  rewrite obj_get_set_ne by done. rewrite !obj_get_modify.
  rewrite (decide_False (P := "components" = "paths")) by done.
  rewrite decide_True by done. by rewrite Hbase.
Qed.

End BaseFacts.

Section BaseClaims.
Context `{Helpers}.
Implicit Types (app : Application) (opts : Options).

(** C9 (scenario F). When the caller passes no [securitySchemes], the
    assembly returns its document with a [security] array of exactly two
    requirements, [accessToken] then [accessTokenParam], each with an
    empty scope list, provided the route identifiers are well formed;
    and no document is returned with another [security]. *)
Theorem default_security_requirements app opts :
  securitySchemes opts = Absent →
  (∀ doc, outcome (createSwaggerObject app opts) = inr doc →
          obj_get "security" doc
          = Some (VSecurity [ [("accessToken", [])];
                              [("accessTokenParam", [])] ])) ∧
  ((∀ r, r ∈ routes app → Route.documented r = true →
         is_Some (parseMethod (Route.method r))) →
   ∃ doc, outcome (createSwaggerObject app opts) = inr doc ∧
          obj_get "security" doc
          = Some (VSecurity [ [("accessToken", [])];
                              [("accessTokenParam", [])] ])).
Proof.
  intros Habsent.
  assert (∀ doc, outcome (createSwaggerObject app opts) = inr doc →
            obj_get "security" doc
            = Some (VSecurity [ [("accessToken", [])];
                                [("accessTokenParam", [])] ])) as Hsec.
  { intros doc. rewrite createSwaggerObject_outcome.
    destruct (outcome (mapRoutes _ _)) as [e|st]; [done|]. intros [= <-].
    rewrite finish_other by done.
    erewrite base_security; [|simpl; by rewrite Habsent].
    unfold makeSecurity. simpl. by rewrite Habsent. }
  split; [done|]. intros Hwf.
  destruct (createSwaggerObject_returns app opts Hwf) as [doc Hdoc].
  exists doc. split; [done|]. by apply Hsec.
Qed.

(** The fields the generator writes itself do not depend on the
    extension object. *)
Lemma base_own opts app ext k :
  k ∈ coreKeys ∨ (k = "security" ∧ securitySchemes opts ≠ Falsy ∧
                  securitySchemes opts ≠ Absent) →
  obj_get k (generateSwaggerObjectBase opts (withSwagger app ext))
  = obj_get k (generateSwaggerObjectBase opts app).
Proof.
  assert (∀ app' v,
            obj_get k [ ("openapi", VString "3.0.1");
                        ("info", VInfo (makeInfo opts app));
                        ("servers", VServers
                           [ {| url := match basePath opts with
                                       | Some b =>
                                           if truthy b && ends_with_slash b
                                           then Some (drop_last b) else Some b
                                       | None => None
                                       end |} ]);
                        ("paths", VPaths []);
                        ("tags", VTags []);
                        ("components",
                         VComponents
                           {| schemas := [];
                              components_securitySchemes :=
                                securitySchemes opts |});
                        ("security", makeSecurity opts) ] = Some v →
            v ≠ VUndefined →
            packageJson app' = packageJson app →
            obj_get k (generateSwaggerObjectBase opts app') = Some v) as Hown.
  { intros app' v Hv Hdef Hpkg. unfold generateSwaggerObjectBase.
    repeat (apply defaults_keep; [|done]).
    unfold makeInfo, getPackagePropertyOrDefault. by rewrite Hpkg. }
  intros [Hk|(-> & Hfalsy & Habsent)].
  - unfold coreKeys in Hk. rewrite !elem_of_cons in Hk.
    destruct Hk as [->|[->|[->|[->|[->|[->|Hk]]]]]];
      [..|by apply elem_of_nil in Hk];
      (erewrite (Hown (withSwagger app ext)); [|reflexivity|done|done]);
      (erewrite (Hown app); [|reflexivity|done|done]); done.
  - assert (makeSecurity opts ≠ VUndefined) as Hsec.
    { unfold makeSecurity. by destruct (securitySchemes opts). }
    erewrite (Hown (withSwagger app ext)); [|reflexivity|done|done].
    by erewrite (Hown app); [|reflexivity|done|done].
Qed.

(** C6, as the code has it. A property of the extension object is found
    unchanged in the returned document when its key is none of
    [openapi], [info], [servers], [paths], [tags] and [components], nor
    [__proto__], and, for the key [security], when the caller has switched
    the security schemes off.  Under the six keys, and under [security]
    when the security schemes are not switched off, the document holds
    what it holds for the same application without extension object. *)
Theorem extension_merged_under_free_keys app opts ext doc :
  swagger app = Some ext →
  outcome (createSwaggerObject app opts) = inr doc →
  (∀ k j,
     obj_get k ext = Some j →
     k ∉ coreKeys → k ≠ "__proto__" →
     (k = "security" → securitySchemes opts = Falsy) →
     obj_get k doc = Some (VJson j)) ∧
  ∃ doc0,
    outcome (createSwaggerObject (withSwagger app None) opts) = inr doc0 ∧
    ∀ k, k ∈ coreKeys ∨ (k = "security" ∧ securitySchemes opts ≠ Falsy) →
         obj_get k doc = obj_get k doc0.
Proof.
  intros Hext. rewrite !createSwaggerObject_outcome.
  change (mapRoutes (withSwagger app None)
            (withDefaults (withSwagger app None) opts))
    with (mapRoutes app (withDefaults app opts)).
  change (withDefaults (withSwagger app None) opts) with (withDefaults app opts).
  change (classes (withSwagger app None)) with (classes app).
  set (opts' := withDefaults app opts).
  destruct (outcome (mapRoutes _ _)) as [e|st]; [done|]. intros [= <-].
  split.
  - intros k j Hk Hcore Hproto Hsec.
    pose proof Hcore as Hcore'.
    unfold coreKeys in Hcore'. rewrite !not_elem_of_cons in Hcore'.
    destruct Hcore' as (_ & _ & _ & ? & ? & ? & _).
    rewrite finish_other by done.
    eapply base_extension; [done..|].
    intros Hs. simpl. by rewrite (Hsec Hs).
  - eexists. split; [done|]. intros k Hk.
    assert (obj_get k (generateSwaggerObjectBase opts' (withSwagger app None))
            = obj_get k (generateSwaggerObjectBase opts' app)) as Hbase.
    { apply base_own. destruct Hk as [Hk|[-> Hs]]; [by left|right].
      split; [done|]. unfold opts'. simpl.
      by destruct (securitySchemes opts). }
    destruct (decide (k = "tags")) as [->|Htags].
    { by rewrite !(finish_tags _ _ _ (base_paths _ _)). }
    destruct (decide (k = "paths")) as [->|Hpaths].
    { by rewrite !(finish_paths _ _ _ (base_paths _ _)). }
    destruct (decide (k = "components")) as [->|Hcomp].
    { by rewrite !(finish_components _ _ _ _ (base_components _ _)). }
    by rewrite !finish_other.
Qed.

End BaseClaims.

(** ** Sorting keys *)

Lemma sort_strings_Permutation l : sort_strings l ≡ₚ l.
Proof. apply merge_sort_Permutation. Qed.

Lemma sort_strings_sorted l : StronglySorted String.le (sort_strings l).
Proof. apply (StronglySorted_merge_sort _). Qed.

Lemma sort_strings_NoDup l : NoDup l → NoDup (sort_strings l).
Proof. intros. by rewrite sort_strings_Permutation. Qed.

Lemma elem_of_sort_strings k l : k ∈ sort_strings l ↔ k ∈ l.
Proof. by rewrite sort_strings_Permutation. Qed.

Lemma map_keys_NoDup {V} (m : gmap string V) : NoDup (map_keys m).
Proof. apply NoDup_fst_map_to_list. Qed.

Lemma elem_of_map_keys {V} (m : gmap string V) k :
  k ∈ map_keys m ↔ is_Some (m !! k).
Proof.
  unfold map_keys. rewrite list_elem_of_fmap. split.
  - intros [[k' v] [-> Hin]]. apply elem_of_map_to_list in Hin. by exists v.
  - intros [v Hv]. exists (k, v). split; [done|]. by apply elem_of_map_to_list.
Qed.

(** ** From the grid to the document *)

Lemma StronglySorted_names l :
  StronglySorted String.le l → StronglySorted String.le (names l).
Proof.
  unfold names. induction 1 as [|k l _ IH Hall]; [constructor|].
  rewrite filter_cons. case_decide; [|done]. constructor; [done|].
  apply Forall_forall. intros x [_ Hx]%list_elem_of_filter.
  by eapply Forall_forall in Hall.
Qed.

Lemma names_all l : Forall (λ k, array_index k = None) l → names l = l.
Proof.
  unfold names. induction 1 as [|k l Hk _ IH]; [done|].
  by rewrite filter_cons, decide_True, IH.
Qed.

Section FinishFacts.
Context `{Helpers}.
Implicit Types (item : gmap string Operation)
  (grid : gmap string (gmap string Operation))
  (used : gmap string bool) (t : string).

(** Reading a plain object after [o[x] = true]. *)
Lemma plain_mark_truthy used x t :
  plain_truthy (plain_mark x used) t = true
  ↔ plain_truthy used t = true ∨ t = x.
Proof.
  unfold plain_mark, plain_truthy. destruct (decide (t = x)) as [->|Hne].
  - destruct (used !! x) as [b|] eqn:Hx.
    + rewrite lookup_insert_eq. tauto.
    + destruct (String.eqb_spec x "__proto__") as [->|].
      * rewrite Hx. split; [by right|]. intros _. by vm_compute.
      * rewrite lookup_insert_eq. tauto.
  - destruct (used !! x) as [b|];
      [|destruct (String.eqb x "__proto__")];
      rewrite ?lookup_insert_ne by done;
      (split; [by left|by intros [?|?]]).
Qed.

Lemma mark_tags used ts t :
  plain_truthy (foldl (λ usedTags tag, plain_mark tag usedTags) used ts) t = true
  ↔ plain_truthy used t = true ∨ t ∈ ts.
Proof.
  revert used. induction ts as [|x ts IH]; intros used; simpl.
  - rewrite elem_of_nil. tauto.
  - rewrite IH, plain_mark_truthy, elem_of_cons. tauto.
Qed.

(** The members of [Object.prototype] are found in an object without
    properties. *)
Lemma plain_truthy_empty t :
  plain_truthy ∅ t = true ↔ t ∈ objectPrototype.
Proof.
  unfold plain_truthy. rewrite lookup_empty. apply bool_decide_eq_true.
Qed.

Lemma copyMethod_slots item (ms : list string) acc m :
  "__proto__" ∉ ms →
  obj_get m (foldl (copyMethod item) acc ms).1
  = if decide (m ∈ ms) then Some (item !! m) else obj_get m acc.1.
Proof.
  revert acc. induction ms as [|x ms IH]; intros acc Hproto; cbn [foldl].
  - by rewrite (decide_False (P := m ∈ [])) by apply not_elem_of_nil.
  - apply not_elem_of_cons in Hproto as [Hx Hproto].
    rewrite IH by done. unfold copyMethod. cbn [fst].
    rewrite obj_get_set by done.
    destruct (decide (m ∈ ms)) as [Hin|Hnin].
    + by rewrite (decide_True (P := m ∈ x :: ms))
        by (apply elem_of_cons; by right).
    + destruct (decide (m = x)) as [->|Hne].
      * by rewrite (decide_True (P := x ∈ x :: ms))
          by (apply elem_of_cons; by left).
      * rewrite (decide_False (P := m ∈ x :: ms)); [done|].
        rewrite elem_of_cons. tauto.
Qed.

Lemma copyMethod_used item (ms : list string) acc t :
  plain_truthy (foldl (copyMethod item) acc ms).2 t = true
  ↔ plain_truthy acc.2 t = true ∨
    ∃ m operation, m ∈ ms ∧ item !! m = Some operation ∧
                   t ∈ operation_tags operation.
Proof.
  revert acc. induction ms as [|x ms IH]; intros acc; simpl.
  - split; [by left|]. intros [?|(m & op & Hm & _)]; [done|].
    by apply elem_of_nil in Hm.
  - rewrite IH. simpl. split.
    + intros [Hx|(m & op & Hm & Hop & Ht)].
      * destruct (item !! x) as [d|] eqn:Hd; [|by left].
        apply mark_tags in Hx as [?|?]; [by left|].
        right. exists x, d. split; [apply elem_of_cons; by left|done].
      * right. exists m, op. split; [apply elem_of_cons; by right|done].
    + intros [Hacc|(m & op & Hm & Hop & Ht)].
      * left. destruct (item !! x); [|done]. apply mark_tags. by left.
      * apply elem_of_cons in Hm as [->|Hm].
        -- left. rewrite Hop. apply mark_tags. by right.
        -- right. by exists m, op.
Qed.

Lemma methods_no_proto : "__proto__" ∉ methods.
Proof. compute_done. Qed.

(** The path items are assigned on an object that never has an own
    property [__proto__]. *)
Lemma copyPath_no_proto grid (ks : list string) acc :
  obj_get "__proto__" acc.1 = None →
  obj_get "__proto__" (foldl (copyPath grid) acc ks).1 = None.
Proof.
  revert acc. induction ks as [|x ks IH]; intros acc Hacc; cbn [foldl]; [done|].
  apply IH. unfold copyPath. cbn [fst]. by apply obj_set_no_proto.
Qed.

Lemma copyPath_operationAt grid (ks : list string) acc path m :
  obj_get "__proto__" acc.1 = None →
  operationAt (foldl (copyPath grid) acc ks).1 path m
  = if decide (path ∈ ks ∧ path ≠ "__proto__") then
      if decide (m ∈ methods) then default ∅ (grid !! path) !! m else None
    else operationAt acc.1 path m.
Proof.
  revert acc. induction ks as [|x ks IH]; intros acc Hacc; cbn [foldl].
  - rewrite decide_False; [done|]. intros [[]%elem_of_nil _].
  - rewrite IH by (unfold copyPath; cbn [fst]; by apply obj_set_no_proto).
    destruct (decide (path ∈ ks ∧ path ≠ "__proto__")) as [[Hin Hne]|Hnin].
    + rewrite (decide_True (P := path ∈ x :: ks ∧ _)); [done|].
      split; [apply elem_of_cons; by right|done].
    + unfold copyPath, operationAt. cbn [fst snd].
      destruct (decide (path = x)) as [->|Hpath].
      * destruct (decide (x = "__proto__")) as [->|Hx].
        -- rewrite obj_set_proto by done.
           rewrite decide_False; [done|]. by intros [_ ?].
        -- rewrite obj_get_set_eq by done.
           rewrite decide_True by (split; [apply elem_of_cons; by left|done]).
           rewrite copyMethod_slots by apply methods_no_proto.
           cbn [fst obj_get].
           destruct (decide (m ∈ methods)); [|done]. by destruct (_ !! m).
      * rewrite obj_get_set_ne by done.
        rewrite decide_False; [done|]. intros [Hin Hne].
        apply elem_of_cons in Hin as [?|Hin]; [done|]. by destruct Hnin.
Qed.

Lemma copyPath_used grid (ks : list string) acc t :
  plain_truthy (foldl (copyPath grid) acc ks).2 t = true
  ↔ plain_truthy acc.2 t = true ∨
    ∃ path m operation,
      path ∈ ks ∧ m ∈ methods ∧
      default ∅ (grid !! path) !! m = Some operation ∧
      t ∈ operation_tags operation.
Proof.
  revert acc. induction ks as [|x ks IH]; intros acc; cbn [foldl].
  - split; [by left|]. intros [?|(p & m & op & Hp & _)]; [done|].
    by apply elem_of_nil in Hp.
  - rewrite IH. unfold copyPath. cbn [fst snd].
    rewrite copyMethod_used. cbn [fst snd]. split.
    + intros [[?|(m & op & ? & ? & ?)]|(p & m & op & ? & ?)].
      * by left.
      * right. exists x, m, op. split; [apply elem_of_cons; by left|done].
      * right. exists p, m, op. split; [apply elem_of_cons; by right|done].
    + intros [?|(p & m & op & Hp & ? & ? & ?)]; [by left; left|].
      apply elem_of_cons in Hp as [->|Hp].
      * left. right. by exists m, op.
      * right. by exists p, m, op.
Qed.

(** The path items are written one key after the other. *)
Lemma copyPath_filled grid (ks : list string) acc :
  filled acc.1 ks (foldl (copyPath grid) acc ks).1.
Proof.
  revert acc. induction ks as [|x ks IH]; intros acc; cbn [foldl].
  - constructor.
  - eapply filled_set. apply (IH (copyPath grid acc x)).
Qed.

Lemma copyPath_elem_of grid (ks : list string) acc path :
  obj_get "__proto__" acc.1 = None →
  path ∈ obj_keys (foldl (copyPath grid) acc ks).1
  ↔ (path ∈ ks ∧ path ≠ "__proto__") ∨ path ∈ obj_keys acc.1.
Proof.
  revert acc. induction ks as [|x ks IH]; intros acc Hacc; cbn [foldl].
  - split; [by right|]. by intros [[[]%elem_of_nil _]|?].
  - rewrite IH by (unfold copyPath; cbn [fst]; by apply obj_set_no_proto).
    unfold copyPath. cbn [fst].
    rewrite elem_of_obj_keys_set_iff by done. rewrite elem_of_cons.
    split.
    + intros [[? ?]|[[-> ?]|?]]; [left|left|by right]; by split; [tauto|].
    + intros [[[->|?] ?]|?]; [right; by left|left; by split|right; by right].
Qed.

End FinishFacts.

(** ** The finished document *)

Section DocumentFacts.
Context `{Helpers}.
Implicit Types (app : Application) (opts : Options) (st : Assembly)
  (base : SwaggerObject) (tags : list Tag).

(** What the copy of the grid holds: the slot of [path] and [m] is the
    entry of the grid, for the seven methods, unless the path names the
    prototype. *)
Lemma copied_operationAt (grid : gmap string (gmap string Operation)) path m operation :
  operationAt (foldl (copyPath grid) ([], ∅) (sort_strings (map_keys grid))).1
              path m = Some operation
  ↔ path ≠ "__proto__" ∧ m ∈ methods ∧
    ∃ item, grid !! path = Some item ∧ item !! m = Some operation.
Proof.
  rewrite copyPath_operationAt by done. cbn [fst]. split.
  - destruct (decide (_ ∧ _)) as [[Hin Hne]|]; [|done].
    destruct (decide (m ∈ methods)); [|done].
    apply elem_of_sort_strings, elem_of_map_keys in Hin as [item Hitem].
    rewrite Hitem. simpl. intros. split; [done|]. split; [done|]. by exists item.
  - intros (Hne & Hm & item & Hitem & Hop).
    rewrite decide_True.
    + rewrite decide_True by done. by rewrite Hitem.
    + split; [|done]. apply elem_of_sort_strings, elem_of_map_keys. by exists item.
Qed.

(** The names that read as used: those inherited from [Object.prototype]
    and the tags of the operations of the grid, under the seven methods. *)
Lemma copied_used (grid : gmap string (gmap string Operation)) t :
  plain_truthy (foldl (copyPath grid) ([], ∅) (sort_strings (map_keys grid))).2 t
  = true
  ↔ t ∈ objectPrototype ∨
    ∃ path item m operation,
      grid !! path = Some item ∧ m ∈ methods ∧ item !! m = Some operation ∧
      t ∈ operation_tags operation.
Proof.
  rewrite copyPath_used. cbn [snd]. rewrite plain_truthy_empty. split.
  - intros [?|(path & m & op & Hpath & Hm & Hop & Ht)]; [by left|]. right.
    apply elem_of_sort_strings, elem_of_map_keys in Hpath as [item Hitem].
    exists path, item, m, op. by rewrite Hitem in Hop.
  - intros [?|(path & item & m & op & Hitem & Hm & Hop & Ht)]; [by left|]. right.
    exists path, m, op. split; [|split; [done|split; [|done]]].
    + apply elem_of_sort_strings, elem_of_map_keys. by exists item.
    + by rewrite Hitem.
Qed.

(** A tag carried by an operation of the copy reads as used. *)
Lemma copied_tagUsed (grid : gmap string (gmap string Operation)) t :
  tagUsed (foldl (copyPath grid) ([], ∅) (sort_strings (map_keys grid))).1 t →
  plain_truthy (foldl (copyPath grid) ([], ∅) (sort_strings (map_keys grid))).2 t
  = true.
Proof.
  intros (path & m & op & Hop & Ht). apply copied_used. right.
  apply copied_operationAt in Hop as (_ & Hm & item & Hitem & Hop).
  by exists path, item, m, op.
Qed.

(** A name that reads as used and is not inherited is carried by an
    operation of the copy, when the grid has no path [__proto__]. *)
Lemma copied_used_tagUsed (grid : gmap string (gmap string Operation)) t :
  plain_truthy (foldl (copyPath grid) ([], ∅) (sort_strings (map_keys grid))).2 t
  = true →
  t ∉ objectPrototype → grid !! "__proto__" = None →
  tagUsed (foldl (copyPath grid) ([], ∅) (sort_strings (map_keys grid))).1 t.
Proof.
  intros [?|(path & item & m & op & Hitem & Hm & Hop & Ht)]%copied_used
         Hno Hgrid; [done|].
  exists path, m, op. split; [|done]. apply copied_operationAt.
  split; [congruence|]. split; [done|]. by exists item.
Qed.

Lemma copied_elem_of (grid : gmap string (gmap string Operation)) path :
  path ∈ obj_keys (foldl (copyPath grid) ([], ∅) (sort_strings (map_keys grid))).1
  ↔ is_Some (grid !! path) ∧ path ≠ "__proto__".
Proof.
  rewrite copyPath_elem_of by done. cbn [fst obj_keys fmap list_fmap].
  rewrite elem_of_sort_strings, elem_of_map_keys, elem_of_nil. tauto.
Qed.

Lemma sortSchemas_filled (m : gmap string Schema) :
  filled [] (sort_strings (map_keys m)) (sortSchemas m).
Proof.
  unfold sortSchemas. generalize (sort_strings (map_keys m)) ([] : Obj Schema).
  induction l as [|x l IH]; intros acc; cbn [foldl].
  - constructor.
  - destruct (m !! x) as [s|].
    + eapply filled_set. apply IH.
    + apply filled_skip. apply IH.
Qed.

Lemma sortSchemas_get (m : gmap string Schema) k :
  obj_get k (sortSchemas m) = if decide (k = "__proto__") then None else m !! k.
Proof.
  unfold sortSchemas.
  assert (∀ (l : list string) (acc : Obj Schema),
            obj_get "__proto__" acc = None →
            obj_get k (foldl (λ sortedSchema current,
                                match m !! current with
                                | Some s => obj_set current s sortedSchema
                                | None => sortedSchema
                                end) acc l)
            = if decide (k ∈ l ∧ k ≠ "__proto__") then
                match m !! k with Some s => Some s | None => obj_get k acc end
              else obj_get k acc) as Hfold.
  { induction l as [|x l IH]; intros acc Hacc; cbn [foldl].
    - rewrite decide_False; [done|]. by intros [[]%elem_of_nil _].
    - rewrite IH by (destruct (m !! x); [by apply obj_set_no_proto|done]).
      destruct (decide (k = x)) as [->|Hne].
      + destruct (decide (x = "__proto__")) as [->|Hx].
        * rewrite !decide_False by (by intros [_ ?]).
          destruct (m !! "__proto__"); [by rewrite obj_set_proto|done].
        * rewrite (decide_True (P := x ∈ x :: l ∧ _))
            by (split; [apply elem_of_cons; by left|done]).
          destruct (m !! x) as [s|] eqn:Hs.
          -- by destruct (decide (x ∈ l ∧ _)); [|rewrite obj_get_set_eq].
          -- by destruct (decide (x ∈ l ∧ _)).
      + assert (obj_get k match m !! x with
                          | Some s => obj_set x s acc
                          | None => acc
                          end = obj_get k acc) as ->.
        { destruct (m !! x); [by rewrite obj_get_set_ne|done]. }
        destruct (decide (k ∈ l ∧ k ≠ "__proto__")) as [[Hin Hk]|Hnin].
        * by rewrite (decide_True (P := k ∈ x :: l ∧ _))
            by (split; [apply elem_of_cons; by right|done]).
        * rewrite (decide_False (P := k ∈ x :: l ∧ _)); [done|].
          rewrite elem_of_cons. tauto. }
  rewrite Hfold by done. cbn [obj_get].
  destruct (decide (k = "__proto__")) as [->|Hk].
  - rewrite decide_False; [done|]. by intros [_ ?].
  - destruct (decide (k ∈ sort_strings (map_keys m) ∧ _)) as [Hin|Hnin].
    + by destruct (m !! k).
    + rewrite elem_of_sort_strings, elem_of_map_keys in Hnin.
      destruct (m !! k) eqn:Hm; [|done]. destruct Hnin. split; [by eexists|done].
Qed.

Lemma assign_filled {V} (dest src : Obj V) :
  filled dest (obj_keys src) (assign dest src).
Proof.
  unfold assign. revert dest.
  induction src as [|[k v] src IH]; intros dest; cbn [foldl].
  - constructor.
  - eapply filled_define. apply IH.
Qed.

(** [_.assign] makes the properties of the source readable on the
    destination. *)
Lemma assign_get {V} (dest src : Obj V) k :
  NoDup (obj_keys src) →
  obj_get k (assign dest src)
  = match obj_get k src with Some v => Some v | None => obj_get k dest end.
Proof.
  unfold assign. revert dest.
  induction src as [|[k0 v0] src IH]; intros dest Hnd; cbn [foldl]; [done|].
  apply NoDup_cons in Hnd as [Hk0 Hnd]. rewrite IH by done. cbn [fst snd].
  simpl. destruct (String.eqb_spec k k0) as [->|Hne].
  - apply obj_get_None in Hk0. simpl in Hk0. rewrite Hk0.
    rewrite obj_get_define. by case_decide.
  - rewrite obj_get_define. by case_decide.
Qed.

(** The key lists of the document's [paths] and [components.schemas]. *)
Lemma filled_from_sorted {V} (l : list string) (o : Obj V) :
  filled [] l o → StronglySorted String.le l →
  NoDup (obj_keys o) ∧
  StronglySorted index_first (obj_keys o) ∧
  StronglySorted String.le (names (obj_keys o)).
Proof.
  intros Hfill Hl. split; [|split].
  - eapply filled_NoDup; [done|constructor].
  - eapply filled_index_first; [done|constructor].
  - eapply filled_names_sorted; [done|]. by apply StronglySorted_names.
Qed.

End DocumentFacts.

(** ** Keys, slots and tags of the returned document *)

Lemma string_ltb_leb a b : String.ltb b a = negb (String.leb a b).
Proof.
  unfold String.ltb, String.leb. rewrite (String.compare_antisym a b).
  by destruct (String.compare b a).
Qed.

Lemma StronglySorted_weaken {A} (R1 R2 : relation A) l :
  (∀ a b, R1 a b → R2 a b) → StronglySorted R1 l → StronglySorted R2 l.
Proof.
  intros Himpl. induction 1 as [|a l _ IH Hall]; constructor; [done|].
  eapply Forall_impl; [done|]. by intros; apply Himpl.
Qed.

Section DocumentClaims.
Context `{Helpers}.
Implicit Types (app : Application) (opts : Options) (st : Assembly).

Lemma compareTags_le (a b : Tag) :
  cmp_le compareTags a b ↔ String.le (tag_name a) (tag_name b).
Proof.
  unfold cmp_le, compareTags, String.le. rewrite string_ltb_leb.
  destruct (String.leb _ _); simpl; split; done.
Qed.

#[global] Instance compareTags_total : Total (cmp_le compareTags).
Proof.
  intros a b. rewrite !compareTags_le. apply String.le_total.
Qed.

#[global] Instance compareTags_trans : Transitive (cmp_le compareTags).
Proof.
  intros a b c. rewrite !compareTags_le. apply transitivity.
Qed.

(** The candidate tags are those of the named classes with a documented
    method, in the order of the classes. *)
Lemma collectTags_eligible cs :
  collectTags cs = buildTagFromClass <$> filter eligible cs.
Proof.
  unfold collectTags.
  assert (∀ acc, foldl collectTag acc cs
                 = acc ++ (buildTagFromClass <$> filter eligible cs)) as Hgen;
    [|by rewrite Hgen].
  induction cs as [|c cs IH]; intros acc; cbn [foldl].
  - by rewrite app_nil_r.
  - rewrite IH, filter_cons. unfold collectTag.
    destruct (decide (eligible c)) as [[Hn Hd]|Hno].
    + rewrite Hn, Hd. simpl. by rewrite <- app_assoc.
    + destruct (truthy _) eqn:Hn; [|done].
      destruct (existsb _ _) eqn:Hd; [|done].
      by destruct Hno.
Qed.

(** The grid only holds operations of delegated routes. *)
Lemma mapRoutes_grid app opts st path item m operation :
  outcome (mapRoutes app opts) = inr st →
  paths st !! path = Some item → item !! m = Some operation →
  ∃ route classDef,
    route ∈ routes app ∧ delegated (classes app) route classDef ∧
    mapsTo opts route classDef path m operation.
Proof.
  unfold mapRoutes. intros Hrun. revert path item m operation.
  eapply (forEachM_invariant
            (routeStep (classes app) opts)
            (λ st, ∀ path item m operation,
               paths st !! path = Some item → item !! m = Some operation →
               ∃ route classDef,
                 route ∈ routes app ∧ delegated (classes app) route classDef ∧
                 mapsTo opts route classDef path m operation)); [| |done].
  - intros r t t' Hr Hinv Hstep path item m operation.
    apply routeStep_inr in Hstep as [->|(classDef & Hdel & ->)]; [apply Hinv|].
    unfold addRouteToSwaggerPaths.
    destruct (routeToPathEntry r classDef (typeRegistry t)
                (operationIdRegistry t) opts) as [[[[p0 m0] op0] tr'] ids'] eqn:Hmap.
    simpl. destruct (decide (p0 = path)) as [->|Hp].
    + rewrite lookup_insert_eq. intros [= <-].
      destruct (decide (m0 = m)) as [->|Hm].
      * rewrite lookup_insert_eq. intros [= <-].
        exists r, classDef. split; [done|]. split; [done|].
        exists (typeRegistry t), (operationIdRegistry t). by rewrite Hmap.
      * rewrite lookup_insert_ne by done.
        destruct (paths t !! path) as [item0|] eqn:Hitem; simpl.
        -- by apply Hinv.
        -- by rewrite lookup_empty.
    + rewrite lookup_insert_ne by done. apply Hinv.
  - simpl. intros path item m operation. by rewrite lookup_empty.
Qed.

(** C2, as the code has it. The keys of [paths] and of
    [components.schemas] in the returned document are pairwise distinct;
    the keys that are array indices come first, in ascending numeric
    order, and the other keys follow in ascending order.  A key list
    without array index is therefore in ascending order. *)
Theorem paths_and_schemas_keys_ordered app opts doc :
  outcome (createSwaggerObject app opts) = inr doc →
  ∃ p c,
    obj_get "paths" doc = Some (VPaths p) ∧
    obj_get "components" doc = Some (VComponents c) ∧
    (NoDup (obj_keys p) ∧
     StronglySorted index_first (obj_keys p) ∧
     StronglySorted String.le (names (obj_keys p)) ∧
     (Forall (λ k, array_index k = None) (obj_keys p) →
      StronglySorted String.le (obj_keys p))) ∧
    (NoDup (obj_keys (schemas c)) ∧
     StronglySorted index_first (obj_keys (schemas c)) ∧
     StronglySorted String.le (names (obj_keys (schemas c))) ∧
     (Forall (λ k, array_index k = None) (obj_keys (schemas c)) →
      StronglySorted String.le (obj_keys (schemas c)))).
Proof.
  rewrite createSwaggerObject_outcome.
  destruct (outcome (mapRoutes _ _)) as [e|st]; [done|]. intros [= <-].
  eexists _, _. split; [apply finish_paths, base_paths|].
  split; [eapply finish_components, base_components|].
  cbn [schemas].
  assert (∀ (V : Type) (o : Obj V),
            NoDup (obj_keys o) ∧
            StronglySorted index_first (obj_keys o) ∧
            StronglySorted String.le (names (obj_keys o)) →
            NoDup (obj_keys o) ∧
            StronglySorted index_first (obj_keys o) ∧
            StronglySorted String.le (names (obj_keys o)) ∧
            (Forall (λ k, array_index k = None) (obj_keys o) →
             StronglySorted String.le (obj_keys o))) as Hall.
  { intros V o (Hnd & Hidx & Hnames). repeat split; [done..|].
    intros Hno. by rewrite <- (names_all _ Hno). }
  split; apply Hall.
  - eapply filled_from_sorted; [apply (copyPath_filled _ _ ([], ∅))|].
    apply sort_strings_sorted.
  - destruct (filled_from_sorted _ _ (sortSchemas_filled (getSchemas (typeRegistry st)))
                (sort_strings_sorted _)) as (Hnd & Hidx & Hnames).
    pose proof (assign_filled [] (sortSchemas (getSchemas (typeRegistry st))))
      as Hfill.
    split; [|split].
    + eapply filled_NoDup; [done|constructor].
    + eapply filled_index_first; [done|constructor].
    + eapply filled_names_sorted; [done|]. done.
Qed.

(** C3. A method slot of a path item of the returned document holds an
    operation only if the route mapper produced that operation, under
    that path and method, for a documented route of the input that the
    loop delegated; the method is one of the seven.  Conversely a slot
    for which no such route exists holds no operation. *)
Theorem populated_slot_has_documented_route app opts doc p path m :
  outcome (createSwaggerObject app opts) = inr doc →
  obj_get "paths" doc = Some (VPaths p) →
  (∀ operation,
     operationAt p path m = Some operation →
     m ∈ methods ∧
     ∃ route classDef,
       route ∈ routes app ∧ Route.documented route = true ∧
       delegated (classes app) route classDef ∧
       mapsTo (withDefaults app opts) route classDef path m operation) ∧
  ((∀ route classDef operation,
      route ∈ routes app → Route.documented route = true →
      ¬ mapsTo (withDefaults app opts) route classDef path m operation) →
   operationAt p path m = None).
Proof.
  rewrite createSwaggerObject_outcome.
  destruct (outcome (mapRoutes _ _)) as [e|st] eqn:Hrun; [done|]. intros [= <-].
  rewrite (finish_paths _ _ _ (base_paths _ _)). intros [= <-].
  assert (∀ operation,
            operationAt (foldl (copyPath (paths st)) ([], ∅)
                           (sort_strings (map_keys (paths st)))).1 path m
            = Some operation →
            m ∈ methods ∧
            ∃ route classDef,
              route ∈ routes app ∧ Route.documented route = true ∧
              delegated (classes app) route classDef ∧
              mapsTo (withDefaults app opts) route classDef path m operation)
    as Hslot.
  { intros operation (_ & Hm & item & Hitem & Hop)%copied_operationAt.
    split; [done|].
    destruct (mapRoutes_grid _ _ _ _ _ _ _ Hrun Hitem Hop)
      as (route & classDef & Hr & Hdel & Hmap).
    exists route, classDef.
    split; [done|]. split; [by destruct Hdel|]. by split. }
  split; [done|]. intros Hnone.
  destruct (operationAt _ path m) as [operation|] eqn:Hop; [|done].
  destruct (Hslot operation eq_refl)
    as (_ & route & classDef & Hr & Hd & _ & Hmap).
  by destruct (Hnone route classDef operation).
Qed.

End DocumentClaims.

(** ** Tags, and the order of the classes *)

Lemma NoDup_fmap_eq {A B} (f : A → B) (l : list A) x y :
  NoDup (f <$> l) → x ∈ l → y ∈ l → f x = f y → x = y.
Proof.
  induction l as [|a l IH]; intros Hnd Hx Hy Hf; [by apply elem_of_nil in Hx|].
  rewrite fmap_cons in Hnd. apply NoDup_cons in Hnd as [Ha Hnd].
  apply elem_of_cons in Hx as [->|Hx]; apply elem_of_cons in Hy as [->|Hy].
  - done.
  - destruct Ha. rewrite Hf. by apply list_elem_of_fmap_2.
  - destruct Ha. rewrite <- Hf. by apply list_elem_of_fmap_2.
  - by apply IH.
Qed.

Lemma forEachM_ext {A S} (f g : S → A → M S) l s :
  (∀ t x, f t x = g t x) → forEachM f l s = forEachM g l s.
Proof.
  intros Hfg. revert s. induction l as [|x l IH]; intros s; simpl; [done|].
  rewrite Hfg. destruct (g s x) as [d [e|t]]; [done|].
  unfold mbind, M_bind. by rewrite IH.
Qed.

Section TagClaims.
Context `{Helpers}.
Implicit Types (app : Application) (opts : Options) (st : Assembly).

(** C1, as the code has it. The tag list of the returned document is
    drawn from the candidate tags (one per named class with a documented
    method) and sorted by name: every tag of the list is a candidate; a
    tag of the list whose name is not the name of a member of
    [Object.prototype] is carried by some operation of the document,
    provided the route mapper has filed nothing under the path
    [__proto__]; a name carried by an operation of the document labels as
    many tags of the list as there are candidates of that name; and the
    list is in ascending order of names. *)
Theorem tags_are_the_used_candidates app opts doc :
  outcome (createSwaggerObject app opts) = inr doc →
  ∃ st p final,
    outcome (mapRoutes app (withDefaults app opts)) = inr st ∧
    obj_get "paths" doc = Some (VPaths p) ∧
    obj_get "tags" doc = Some (VTags final) ∧
    (∀ tag, tag ∈ final → tag ∈ collectTags (classes app)) ∧
    (∀ tag, tag ∈ final →
            tag_name tag ∉ objectPrototype →
            paths st !! "__proto__" = None →
            tagUsed p (tag_name tag)) ∧
    (∀ name, tagUsed p name →
             filter (λ tag, tag_name tag = name) final
             ≡ₚ filter (λ tag, tag_name tag = name) (collectTags (classes app))) ∧
    StronglySorted (λ a b, String.le (tag_name a) (tag_name b)) final.
Proof.
  rewrite createSwaggerObject_outcome.
  destruct (outcome (mapRoutes _ _)) as [e|st]; [done|]. intros [= <-].
  eexists st, _, _. split; [done|]. split; [apply finish_paths, base_paths|].
  split; [apply finish_tags, base_paths|].
  set (copied := foldl (copyPath (paths st)) ([], ∅)
                       (sort_strings (map_keys (paths st)))).
  assert (sort_with compareTags (filter (isUsed copied.2) (collectTags (classes app)))
          ≡ₚ filter (isUsed copied.2) (collectTags (classes app))) as Hperm.
  { apply merge_sort_Permutation. }
  split; [|split; [|split]].
  - intros tag Htag. rewrite Hperm in Htag.
    by apply list_elem_of_filter in Htag as [_ Hc].
  - intros tag Htag Hproto Hgrid. rewrite Hperm in Htag.
    apply list_elem_of_filter in Htag as [Hu _].
    by apply copied_used_tagUsed.
  - intros name Hname. rewrite Hperm. rewrite list_filter_filter.
    erewrite list_filter_iff; [done|]. intros tag. split; [by intros [? _]|].
    intros Heq. split; [done|]. unfold isUsed. rewrite Heq.
    by apply copied_tagUsed.
  - eapply StronglySorted_weaken; [|apply (StronglySorted_merge_sort _)].
    intros a b. apply compareTags_le.
Qed.

Lemma findClass_unique cs className classDef :
  NoDup (SharedClass.name <$> cs) →
  classDef ∈ cs → SharedClass.name classDef = className →
  findClass cs className = Some classDef.
Proof.
  unfold findClass. induction cs as [|c cs IH]; intros Hnd Hin Hname.
  - by apply elem_of_nil in Hin.
  - rewrite fmap_cons in Hnd. apply NoDup_cons in Hnd as [Hc Hnd].
    rewrite filter_cons. apply elem_of_cons in Hin as [->|Hin].
    + by rewrite decide_True.
    + rewrite decide_False; [by apply IH|].
      intros Heq. destruct Hc. rewrite Heq, <- Hname.
      by apply list_elem_of_fmap_2.
Qed.

Lemma findClass_Permutation cs cs' className :
  cs' ≡ₚ cs → NoDup (SharedClass.name <$> cs) →
  findClass cs' className = findClass cs className.
Proof.
  intros Hperm Hnd.
  assert (NoDup (SharedClass.name <$> cs')) as Hnd' by by rewrite Hperm.
  destruct (findClass cs className) as [c|] eqn:Hc.
  - apply findClass_Some in Hc as [Hin Hname].
    apply findClass_unique; [done| |done]. by rewrite Hperm.
  - destruct (findClass cs' className) as [c'|] eqn:Hc'; [|done].
    apply findClass_Some in Hc' as [Hin Hname]. rewrite Hperm in Hin.
    by rewrite (findClass_unique cs className c') in Hc.
Qed.

Lemma sort_tags_Permutation (l l' : list Tag) :
  l' ≡ₚ l →
  (∀ a b, a ∈ l → b ∈ l → tag_name a = tag_name b → a = b) →
  sort_with compareTags l' = sort_with compareTags l.
Proof.
  intros Hperm Hinj. unfold sort_with.
  apply (StronglySorted_unique_strong (cmp_le compareTags)).
  - intros a b Ha Hb Hab Hba.
    rewrite merge_sort_Permutation in Ha, Hb. rewrite Hperm in Ha.
    apply Hinj; [done..|].
    apply compareTags_le in Hab, Hba. by apply (anti_symm String.le).
  - apply (StronglySorted_merge_sort _).
  - apply (StronglySorted_merge_sort _).
  - by rewrite !merge_sort_Permutation.
Qed.

Lemma finish_tags_Permutation base (tags tags' : list Tag) st :
  tags' ≡ₚ tags →
  (∀ a b, a ∈ tags → b ∈ tags → tag_name a = tag_name b → a = b) →
  finish base tags' st = finish base tags st.
Proof.
  intros Hperm Hinj. unfold finish. cbv zeta. do 2 f_equal.
  apply sort_tags_Permutation.
  - by apply filter_Permutation.
  - intros a b [_ Ha]%list_elem_of_filter [_ Hb]%list_elem_of_filter.
    by apply Hinj.
Qed.

(** C4, as the code has it. The assembly is a function of its input
    snapshot, so two runs over one snapshot return the same document; and
    the classes may be listed in any order, as long as no two classes
    share a name and no two candidate tags share a name: the result
    (document, diagnostics, or exception) is the same. *)
Theorem class_order_does_not_matter app opts cs' :
  cs' ≡ₚ classes app →
  NoDup (SharedClass.name <$> classes app) →
  NoDup (tag_name <$> collectTags (classes app)) →
  createSwaggerObject (withClasses app cs') opts = createSwaggerObject app opts.
Proof.
  intros Hperm Hnames Htags. unfold createSwaggerObject.
  change (withDefaults (withClasses app cs') opts) with (withDefaults app opts).
  set (opts' := withDefaults app opts).
  assert (mapRoutes (withClasses app cs') opts' = mapRoutes app opts') as ->.
  { unfold mapRoutes. simpl. apply forEachM_ext. intros t r.
    unfold routeStep. destruct (Route.documented r); [|done]. simpl.
    destruct (parseMethod _) as [[className methodName]|]; [|done].
    by rewrite (findClass_Permutation (classes app) cs'). }
  destruct (mapRoutes app opts') as [d [e|st]]; [done|].
  unfold mbind, M_bind, mret, M_ret. cbn [fst snd].
  change (classes (withClasses app cs')) with cs'.
  change (generateSwaggerObjectBase opts' (withClasses app cs'))
    with (generateSwaggerObjectBase opts' app).
  rewrite (finish_tags_Permutation _ (collectTags (classes app)) (collectTags cs')).
  - done.
  - rewrite !collectTags_eligible. by rewrite Hperm.
  - intros a b. by apply NoDup_fmap_eq.
Qed.

End TagClaims.

(** * Further properties of the generator *)

(** ** The identifier of a route *)

Lemma split_first_dot_Some s a b :
  split_first_dot s = Some (a, b) ↔
  s = a +:+ String "." b ∧ "."%char ∉ list_ascii_of_string a.
Proof.
  split.
  - revert a. induction s as [|c s IH]; intros a; simpl; [done|].
    destruct (Ascii.eqb_spec c ".") as [->|Hc].
    + intros [= <- <-]. split; [done|]. apply not_elem_of_nil.
    + destruct (split_first_dot s) as [[a' b']|]; [|done].
      intros [= <- <-]. destruct (IH a' eq_refl) as [-> Ha'].
      split; [done|]. simpl. rewrite not_elem_of_cons. split; [congruence|done].
  - intros [-> Ha]. by apply split_first_dot_append.
Qed.

(** X1. The regular expression of the route loop accepts exactly the
    identifiers made of a non-empty class name without dot, a dot, and a
    rest without line terminator; the class name is what stands before
    the first dot and the method name is the rest without its first
    "prototype." *)
Theorem parseMethod_accepts s className methodName :
  parseMethod s = Some (className, methodName) ↔
  ∃ rest,
    s = className +:+ String "." rest ∧
    className ≠ "" ∧
    ("."%char ∉ list_ascii_of_string className) ∧
    has_line_terminator rest = false ∧
    methodName = remove_first "prototype." rest.
Proof.
  unfold parseMethod, exec_class_method. split.
  - destruct (split_first_dot s) as [[g1 g2]|] eqn:Hsplit; [|done].
    apply split_first_dot_Some in Hsplit as [-> Hdot].
    destruct (String.eqb_spec g1 ""); [done|].
    destruct (has_line_terminator g2) eqn:Hline; [done|]. simpl.
    intros [= <- <-]. by exists g2.
  - intros (rest & -> & Hne & Hdot & Hline & ->).
    rewrite split_first_dot_append by done. rewrite Hline.
    by destruct (String.eqb_spec className "").
Qed.

Lemma strip_prefix_Some p s rest :
  strip_prefix p s = Some rest ↔ s = p +:+ rest.
Proof.
  revert s. induction p as [|a p IH]; intros s; simpl.
  - split; [by intros [= ->]|by intros ->].
  - destruct s as [|b s]; [done|].
    destruct (Ascii.eqb_spec a b) as [->|Hne].
    + rewrite IH. split; [by intros ->|by intros [= ->]].
    + split; [done|]. intros [= -> _]. done.
Qed.

(** [s.replace(pat, '')] leaves a string without [pat] alone. *)
Lemma remove_first_absent pat s :
  (∀ a b, s ≠ a +:+ pat +:+ b) → remove_first pat s = s.
Proof.
  induction s as [|c s IH]; intros Habsent.
  - simpl. destruct (strip_prefix pat "") as [rest|] eqn:Hp; [|done].
    apply strip_prefix_Some in Hp. by destruct (Habsent "" rest).
  - simpl. destruct (strip_prefix pat (String c s)) as [rest|] eqn:Hp.
    + apply strip_prefix_Some in Hp. by destruct (Habsent "" rest).
    + f_equal. apply IH. intros a b ->. by destruct (Habsent (String c a) b).
Qed.

(** ... and takes the leftmost occurrence out of a string that has one. *)
Lemma remove_first_present pat s a b :
  s = a +:+ pat +:+ b →
  ∃ a' b',
    s = a' +:+ pat +:+ b' ∧ (String.length a' ≤ String.length a)%nat ∧
    remove_first pat s = a' +:+ b'.
Proof.
  revert a. induction s as [|c s IH]; intros a Hs.
  - simpl. destruct (strip_prefix pat "") as [rest|] eqn:Hp.
    + apply strip_prefix_Some in Hp. exists "", rest. simpl.
      split; [done|]. split; [lia|done].
    + destruct a; [|done].
      assert (strip_prefix pat "" = Some b) as Hb
        by (apply strip_prefix_Some; exact Hs).
      congruence.
  - simpl. destruct (strip_prefix pat (String c s)) as [rest|] eqn:Hp.
    + apply strip_prefix_Some in Hp. exists "", rest. simpl.
      split; [done|]. split; [lia|done].
    + destruct a as [|c' a].
      * assert (strip_prefix pat (String c s) = Some b) as Hb
          by (apply strip_prefix_Some; exact Hs).
        congruence.
      * simpl in Hs. injection Hs as <- Hs.
        destruct (IH a Hs) as (a' & b' & Hs' & Hlen & Hrem).
        exists (String c a'), b'. simpl. rewrite Hrem.
        split; [by rewrite Hs' at 1|]. split; [lia|done].
Qed.

(** X2. The instance-method marker is removed wherever it first occurs in
    what follows the class name, not only in front: a rest without the
    marker is the method name as it is, and a rest with the marker loses
    its leftmost occurrence. *)
Theorem parseMethod_strips_leftmost_marker className rest :
  className ≠ "" →
  "."%char ∉ list_ascii_of_string className →
  has_line_terminator rest = false →
  ∃ methodName,
    parseMethod (className +:+ String "." rest) = Some (className, methodName) ∧
    ((∀ a b, rest ≠ a +:+ "prototype." +:+ b) → methodName = rest) ∧
    (∀ a b, rest = a +:+ "prototype." +:+ b →
            ∃ a' b',
              rest = a' +:+ "prototype." +:+ b' ∧
              (String.length a' ≤ String.length a)%nat ∧
              methodName = a' +:+ b').
Proof.
  intros Hne Hdot Hline. exists (remove_first "prototype." rest).
  split; [by apply parseMethod_static|]. split.
  - apply remove_first_absent.
  - intros a b. apply remove_first_present.
Qed.

(** ** The route loop, route by route *)

Section MoreRouteFacts.
Context `{Helpers}.
Implicit Types (app : Application) (opts : Options) (st : Assembly)
  (r : Route.t) (classDef : SharedClass.t).

(** X3. A route that is not documented is never looked at: with or
    without it, and whatever its identifier, the assembly gives the same
    result. *)
Theorem undocumented_route_is_inert app opts pre r post :
  Route.documented r = false →
  createSwaggerObject (withRoutes app (pre ++ r :: post)) opts
  = createSwaggerObject (withRoutes app (pre ++ post)) opts.
Proof.
  intros Hd. unfold createSwaggerObject.
  change (withDefaults (withRoutes app _) opts) with (withDefaults app opts).
  rewrite !mapRoutes_withRoutes.
  change (classes (withRoutes app ?rs)) with (classes app).
  rewrite forEachM_noop; [done|].
  intros t. by apply routeStep_undocumented.
Qed.

(** X4. The assembly throws exactly when the identifier of some documented
    route does not have the form the loop expects; otherwise it returns a
    document. *)
Theorem throws_iff_unparsed_identifier app opts :
  outcome (createSwaggerObject app opts) = inl TypeError ↔
  ∃ r, r ∈ routes app ∧ Route.documented r = true ∧
       parseMethod (Route.method r) = None.
Proof.
  split.
  - intros Hthrow.
    destruct (decide (Exists (λ r, Route.documented r = true ∧
                                   parseMethod (Route.method r) = None)
                             (routes app))) as [Hex|Hno].
    + apply Exists_exists in Hex as (r & Hr & Hd & Hp). by exists r.
    + apply not_Exists_Forall in Hno. rewrite Forall_forall in Hno.
      destruct (createSwaggerObject_returns app opts) as [doc Hdoc].
      * intros r Hr Hd. specialize (Hno r Hr). simpl in Hno.
        destruct (parseMethod (Route.method r)); [by eexists|].
        by destruct Hno.
      * congruence.
      * intros x. apply _.
  - intros (r & Hr & Hd & Hp). rewrite createSwaggerObject_outcome.
    unfold mapRoutes.
    edestruct (forEachM_throws
                 (routeStep (classes app) (withDefaults app opts))
                 (routes app) r TypeError) as [e ->]; [done| |by destruct e].
    intros t. by rewrite routeStep_unparsed.
Qed.

Lemma routeStep_log cs opts st r d t :
  routeStep cs opts st r = (d, inr t) →
  d = if orphaned cs r then [RouteWithNoClass r] else [].
Proof.
  unfold routeStep, orphaned.
  destruct (Route.documented r); simpl; [|by intros [= <- _]].
  destruct (parseMethod (Route.method r)) as [[className methodName]|]; [|done].
  destruct (findClass cs className) as [classDef|]; simpl.
  - destruct (filteredOut classDef methodName); by intros [= <- _].
  - by intros [= <- _].
Qed.

Lemma forEachM_orphans cs opts rs st st' :
  outcome (forEachM (routeStep cs opts) rs st) = inr st' →
  diagnostics (forEachM (routeStep cs opts) rs st)
  = RouteWithNoClass <$> filter (λ r, orphaned cs r = true) rs.
Proof.
  revert st. induction rs as [|r rs IH]; intros st; [done|].
  cbn [forEachM]. rewrite filter_cons.
  destruct (routeStep cs opts st r) as [d [e|t]] eqn:Hstep; [done|].
  unfold mbind, M_bind, outcome, diagnostics. cbn [fst snd]. intros Hrun.
  specialize (IH t Hrun). unfold diagnostics in IH. rewrite IH.
  apply routeStep_log in Hstep as ->.
  destruct (orphaned cs r) eqn:Ho.
  - by rewrite decide_True.
  - by rewrite decide_False.
Qed.

(** X5. When the assembly returns a document, its log holds one
    diagnostic for each documented route whose class name is the name of
    no class, in the order of the routes, and nothing else. *)
Theorem diagnostics_are_the_orphans app opts doc :
  outcome (createSwaggerObject app opts) = inr doc →
  diagnostics (createSwaggerObject app opts)
  = RouteWithNoClass <$> filter (λ r, orphaned (classes app) r = true) (routes app).
Proof.
  rewrite createSwaggerObject_outcome, createSwaggerObject_diagnostics.
  unfold mapRoutes.
  destruct (outcome (forEachM _ _ _)) as [e|st] eqn:Hrun; [done|]. intros _.
  by eapply forEachM_orphans.
Qed.

(** A route that passes every test is handed to the route mapper where it
    stands in the list. *)
Lemma mapRoutes_delegated app opts pre r post classDef :
  (∀ st, routeStep (classes app) opts st r
         = mret (addRouteToSwaggerPaths r classDef st opts)) →
  mapRoutes (withRoutes app (pre ++ r :: post)) opts
  = (st ← mapRoutes (withRoutes app pre) opts;
     forEachM (routeStep (classes app) opts) post
       (addRouteToSwaggerPaths r classDef st opts)).
Proof.
  intros Hstep. rewrite !mapRoutes_withRoutes, forEachM_app.
  destruct (forEachM _ pre _) as [l [e|t]]; [done|].
  unfold mbind at 1 2, M_bind at 1 2. cbn [forEachM]. rewrite Hstep.
  unfold mbind, M_bind, mret, M_ret. cbn [fst snd]. done.
Qed.

(** The operation of a route handed to the route mapper last is in the
    document. *)
Lemma delegated_last_in_document app opts pre r classDef st path m operation :
  (∀ t, routeStep (classes app) (withDefaults app opts) t r
        = mret (addRouteToSwaggerPaths r classDef t (withDefaults app opts))) →
  outcome (mapRoutes (withRoutes app pre) (withDefaults app opts)) = inr st →
  (routeToPathEntry r classDef (typeRegistry st) (operationIdRegistry st)
     (withDefaults app opts)).1.1 = (path, m, operation) →
  m ∈ methods → path ≠ "__proto__" →
  ∃ doc,
    outcome (createSwaggerObject (withRoutes app (pre ++ [r])) opts) = inr doc ∧
    operationAt (documentPaths doc) path m = Some operation.
Proof.
  intros Hstep Hpre Hmap Hm Hpath. rewrite createSwaggerObject_outcome.
  change (withDefaults (withRoutes app _) opts) with (withDefaults app opts).
  rewrite (mapRoutes_delegated _ _ _ _ _ classDef) by done.
  unfold outcome in Hpre |- *.
  destruct (mapRoutes (withRoutes app pre) _) as [l [e|t]]; [done|].
  simpl in Hpre. injection Hpre as ->.
  unfold mbind, M_bind. cbn [forEachM mret M_ret fst snd].
  eexists. split; [done|].
  unfold documentPaths. rewrite (finish_paths _ _ _ (base_paths _ _)).
  apply copied_operationAt. split; [done|]. split; [done|].
  unfold addRouteToSwaggerPaths.
  destruct (routeToPathEntry r classDef (typeRegistry st)
              (operationIdRegistry st) (withDefaults app opts))
    as [[[[p0 m0] op0] tr'] ids']. simpl in Hmap. injection Hmap as -> -> ->.
  cbn [paths]. eexists. split; [apply lookup_insert_eq|apply lookup_insert_eq].
Qed.

(** X6. The allow-list of a class is read as a plain object, by method
    name and by truthiness.  A documented route of the class whose method
    name reads as falsy there leaves no trace in the result.  One whose
    method name reads as truthy (an own entry that is true, or no own
    entry and the name of a member of [Object.prototype]) is handed to
    the route mapper where it stands in the route list; when it is the
    last route, its operation is in the document under the path and
    method chosen by the route mapper, for one of the seven methods and a
    path other than [__proto__]. *)
Theorem allow_list_filters_by_truthiness
    app opts pre r post className methodName classDef allowed :
  findClass (classes app) className = Some classDef →
  SharedClass._swaggerMethods classDef = Some allowed →
  Route.documented r = true →
  parseMethod (Route.method r) = Some (className, methodName) →
  (plain_truthy allowed methodName = false →
   createSwaggerObject (withRoutes app (pre ++ r :: post)) opts
   = createSwaggerObject (withRoutes app (pre ++ post)) opts) ∧
  (plain_truthy allowed methodName = true →
   (∀ opts',
      mapRoutes (withRoutes app (pre ++ r :: post)) opts'
      = (st ← mapRoutes (withRoutes app pre) opts';
         forEachM (routeStep (classes app) opts') post
           (addRouteToSwaggerPaths r classDef st opts'))) ∧
   (∀ st path m operation,
      outcome (mapRoutes (withRoutes app pre) (withDefaults app opts)) = inr st →
      (routeToPathEntry r classDef (typeRegistry st) (operationIdRegistry st)
         (withDefaults app opts)).1.1 = (path, m, operation) →
      m ∈ methods → path ≠ "__proto__" →
      ∃ doc,
        outcome (createSwaggerObject (withRoutes app (pre ++ [r])) opts)
        = inr doc ∧
        operationAt (documentPaths doc) path m = Some operation)).
Proof.
  intros Hc Hallow Hd Hparse. split.
  - intros Hno. unfold createSwaggerObject.
    change (withDefaults (withRoutes app _) opts) with (withDefaults app opts).
    rewrite !mapRoutes_withRoutes.
    change (classes (withRoutes app ?rs)) with (classes app).
    rewrite forEachM_noop; [done|].
    intros t. erewrite routeStep_class by done.
    unfold filteredOut. by rewrite Hallow, Hno.
  - intros Hyes.
    assert (∀ opts' t, routeStep (classes app) opts' t r
                       = mret (addRouteToSwaggerPaths r classDef t opts'))
      as Hstep.
    { intros opts' t. erewrite routeStep_class by done.
      unfold filteredOut. by rewrite Hallow, Hyes. }
    split.
    + intros opts'. by apply mapRoutes_delegated.
    + intros st path m operation. by apply delegated_last_in_document.
Qed.

(** X7. The class of a route is the first class of the list that carries
    the class name: classes listed before it have another name, and a
    later class of the same name is never used. *)
Theorem findClass_is_first_match cs className classDef :
  findClass cs className = Some classDef ↔
  ∃ before after,
    cs = before ++ classDef :: after ∧
    SharedClass.name classDef = className ∧
    Forall (λ c, SharedClass.name c ≠ className) before.
Proof.
  unfold findClass. split.
  - induction cs as [|c cs IH]; [done|].
    rewrite filter_cons. destruct (decide (SharedClass.name c = className)) as [Hc|Hc].
    + intros [= ->]. by exists [], cs.
    + intros Hhd. destruct (IH Hhd) as (before & after & -> & Hname & Hbefore).
      exists (c :: before), after. split; [done|]. split; [done|].
      by constructor.
  - intros (before & after & -> & Hname & Hbefore).
    induction Hbefore as [|c before Hc _ IH]; simpl.
    + rewrite filter_cons. by rewrite decide_True.
    + rewrite filter_cons. by rewrite decide_False.
Qed.

End MoreRouteFacts.

(** ** The fixed fields of the document *)

Lemma drop_last_slash b :
  ends_with_slash b = true → drop_last b +:+ "/" = b.
Proof.
  induction b as [|c b IH]; [done|]. destruct b as [|c' b].
  - simpl. by intros ->%Ascii.eqb_eq.
  - intros Hb. change (String c (drop_last (String c' b) +:+ "/") = String c (String c' b)).
    f_equal. by apply IH.
Qed.

Section MoreBaseFacts.
Context `{Helpers}.
Implicit Types (app : Application) (opts : Options)
  (d src : SwaggerObject) (k : string).

Lemma createSwaggerObject_other app opts doc k :
  outcome (createSwaggerObject app opts) = inr doc →
  k ≠ "tags" → k ≠ "paths" → k ≠ "components" →
  obj_get k doc = obj_get k (generateSwaggerObjectBase (withDefaults app opts) app).
Proof.
  rewrite createSwaggerObject_outcome.
  destruct (outcome (mapRoutes _ _)) as [e|st]; [done|]. intros [= <-] ???.
  by apply finish_other.
Qed.

(** X8. [servers] holds one entry. Its [url] is the base path (the option
    of the caller, else the application's [restApiRoot] unless that is
    empty, else "/api") with one trailing slash taken off, and the base
    path itself when it does not end in a slash. *)
Theorem servers_url_drops_one_trailing_slash app opts doc :
  outcome (createSwaggerObject app opts) = inr doc →
  let b := match basePath opts with
           | Some b => b
           | None => match restApiRoot app with
                     | Some r => if truthy r then r else "/api"
                     | None => "/api"
                     end
           end in
  ∃ u,
    obj_get "servers" doc = Some (VServers [ {| url := Some u |} ]) ∧
    (ends_with_slash b = true → b = u +:+ "/") ∧
    (ends_with_slash b = false → u = b).
Proof.
  intros Hrun b. rewrite (createSwaggerObject_other _ _ _ _ Hrun) by done.
  unfold generateSwaggerObjectBase.
  assert (basePath (withDefaults app opts) = Some b) as ->.
  { unfold b. simpl. by destruct (basePath opts). }
  destruct (ends_with_slash b) eqn:Hslash.
  - exists (drop_last b). split; [|split; [|done]].
    + repeat (apply defaults_keep; [|done]). simpl.
      assert (truthy b = true) as -> by (by destruct b). done.
    + intros _. by rewrite drop_last_slash.
  - exists b. split; [|split; [done|done]].
    repeat (apply defaults_keep; [|done]). simpl.
    by rewrite andb_false_r.
Qed.

Lemma getPackagePropertyOrDefault_truthy app name defautValue :
  truthy defautValue = true →
  truthy (getPackagePropertyOrDefault app name defautValue) = true.
Proof.
  intros Hd. unfold getPackagePropertyOrDefault.
  destruct (packageJson app) as [pkg|]; [|done].
  destruct (obj_get name pkg) as [v|]; [|done].
  by destruct (truthy v) eqn:Hv.
Qed.

(** [if (!o[k]) o[k] = d] *)
Lemma fill_when_falsy k dflt (o : Obj string) :
  k ≠ "__proto__" →
  obj_get k (match obj_get k o with
             | Some t => if truthy t then o else obj_set k dflt o
             | None => obj_set k dflt o
             end)
  = Some (match obj_get k o with
          | Some t => if truthy t then t else dflt
          | None => dflt
          end) ∧
  ∀ k', k' ≠ k →
        obj_get k' (match obj_get k o with
                    | Some t => if truthy t then o else obj_set k dflt o
                    | None => obj_set k dflt o
                    end) = obj_get k' o.
Proof.
  intros Hproto. destruct (obj_get k o) as [t|] eqn:Hk.
  - destruct (truthy t) eqn:Ht.
    + split; [done|done].
    + split; [by rewrite obj_get_set_eq|].
      intros k' Hne. by rewrite obj_get_set_ne.
  - split; [by rewrite obj_get_set_eq|].
    intros k' Hne. by rewrite obj_get_set_ne.
Qed.

(** X9. [info] carries a [title], a [description] and a [version]: the
    text of the caller, passed through the text converter, when that is
    not empty; otherwise, for the title and the description, the [name]
    and the [description] of the package when they are not empty, and
    "LoopBack Application" when they are, or when there is no package;
    and for the version, the [version] option of the caller, or else the
    version of the package, or else "1.0.0".  The title and the
    description are never empty.  Every other property of [apiInfo] is
    passed through the text converter and kept. *)
Theorem info_is_completed app opts doc :
  outcome (createSwaggerObject app opts) = inr doc →
  let given k := convertText <$> obj_get k (default [] (apiInfo opts)) in
  let package k dflt :=
    match packageJson app ≫= obj_get k with
    | Some v => if truthy v then v else dflt
    | None => dflt
    end in
  let pick k fallback :=
    match given k with
    | Some t => if truthy t then t else fallback
    | None => fallback
    end in
  let title := pick "title" (package "name" "LoopBack Application") in
  let description :=
    pick "description" (package "description" "LoopBack Application") in
  ∃ i,
    obj_get "info" doc = Some (VInfo i) ∧
    obj_get "title" i = Some title ∧ truthy title = true ∧
    obj_get "description" i = Some description ∧ truthy description = true ∧
    obj_get "version" i
    = Some (pick "version" (match version opts with
                            | Some v => v
                            | None => package "version" "1.0.0"
                            end)) ∧
    ∀ k, k ≠ "version" → k ≠ "title" → k ≠ "description" →
         obj_get k i = given k.
Proof.
  intros Hrun given package pick title description.
  assert (∀ k dflt, getPackagePropertyOrDefault app k dflt = package k dflt)
    as Hpkg.
  { intros k dflt. unfold getPackagePropertyOrDefault, package.
    by destruct (packageJson app). }
  assert (∀ k dflt, truthy dflt = true → truthy (pick k dflt) = true) as Hpick.
  { intros k dflt Hd. unfold pick. destruct (given k) as [t|]; [|done].
    by destruct (truthy t) eqn:Ht. }
  assert (∀ k, truthy (package k "LoopBack Application") = true) as Hdflt.
  { intros k. unfold package. destruct (packageJson app ≫= obj_get k) as [v|]; [|done].
    by destruct (truthy v) eqn:Hv. }
  exists (makeInfo (withDefaults app opts) app). split.
  { rewrite (createSwaggerObject_other _ _ _ _ Hrun) by done.
    unfold generateSwaggerObjectBase. by repeat (apply defaults_keep; [|done]). }
  unfold makeInfo. cbv zeta.
  change (apiInfo (withDefaults app opts)) with (apiInfo opts).
  rewrite !Hpkg.
  set (converted := (λ kv, (kv.1, convertText kv.2)) <$> default [] (apiInfo opts)).
  assert (∀ k, obj_get k converted = given k) as Hconv.
  { intros k. unfold converted, given. by rewrite obj_get_fmap. }
  set (versioned := obj_set "version" _ converted).
  destruct (fill_when_falsy "title" (package "name" "LoopBack Application")
              versioned) as [Ht Htitle]; [done|].
  set (titled := match obj_get "title" versioned with
                 | Some t => if truthy t then versioned
                             else obj_set "title"
                                    (package "name" "LoopBack Application")
                                    versioned
                 | None => obj_set "title"
                             (package "name" "LoopBack Application") versioned
                 end) in *.
  destruct (fill_when_falsy "description"
              (package "description" "LoopBack Application") titled)
    as [Hd Hdescr]; [done|].
  assert (obj_get "title" versioned = given "title") as Hvt.
  { unfold versioned. by rewrite obj_get_set_ne, Hconv. }
  assert (obj_get "description" titled = given "description") as Hvd.
  { rewrite Htitle by done. unfold versioned.
    by rewrite obj_get_set_ne, Hconv. }
  split; [|split; [by apply Hpick|]].
  { rewrite Hdescr by done. rewrite Ht, Hvt. done. }
  split; [|split; [by apply Hpick|]].
  { rewrite Hd, Hvd. done. }
  split.
  - rewrite Hdescr, Htitle by done. unfold versioned.
    rewrite obj_get_set_eq by done. rewrite Hconv.
    assert (default "undefined" (version (withDefaults app opts))
            = match version opts with
              | Some v => v
              | None => package "version" "1.0.0"
              end) as ->.
    { simpl. rewrite Hpkg. by destruct (version opts). }
    done.
  - intros k Hv Ht' Hd'. rewrite Hdescr, Htitle by done. unfold versioned.
    by rewrite obj_get_set_ne, Hconv.
Qed.

(** [def = {}; def[type] = []] *)
Lemma requirement_of type :
  obj_set type ([] : list string) []
  = if decide (type = "__proto__") then [] else [(type, [])].
Proof.
  unfold obj_set, obj_define. cbn [obj_get].
  destruct (String.eqb_spec type "__proto__") as [->|Hne].
  - by rewrite decide_True.
  - rewrite decide_False by done. by destruct (array_index type).
Qed.

Lemma makeSecurity_Given opts schemes :
  securitySchemes opts = Given schemes →
  makeSecurity opts
  = VSecurity ((λ type, if decide (type = "__proto__") then []
                        else [(type, [])]) <$> obj_keys schemes).
Proof.
  intros Hs. unfold makeSecurity. rewrite Hs. f_equal.
  assert (∀ (l : list string) (acc : list (Obj (list string))),
            foldl (λ security type, security ++ [obj_set type [] []]) acc l
            = acc ++ ((λ type, if decide (type = "__proto__") then []
                               else [(type, [])]) <$> l)) as Hfold.
  { induction l as [|x l IH]; intros acc; simpl.
    - by rewrite app_nil_r.
    - rewrite IH, requirement_of. by rewrite <- app_assoc. }
  by rewrite Hfold.
Qed.

(** X10. With security schemes supplied by the caller, [security] lists
    one requirement per scheme, in the order of the schemes, each naming
    its scheme with an empty scope list (the requirement of a scheme
    named [__proto__] is an object without properties), and
    [components.securitySchemes] is the object of the caller. *)
Theorem security_follows_the_schemes app opts schemes doc :
  securitySchemes opts = Given schemes →
  outcome (createSwaggerObject app opts) = inr doc →
  obj_get "security" doc
  = Some (VSecurity ((λ type, if decide (type = "__proto__") then []
                              else [(type, [])]) <$> obj_keys schemes)) ∧
  ∃ c, obj_get "components" doc = Some (VComponents c) ∧
       components_securitySchemes c = Given schemes.
Proof.
  intros Hs Hrun.
  assert (securitySchemes (withDefaults app opts) = Given schemes) as Hs'
    by (simpl; by rewrite Hs).
  split.
  - rewrite (createSwaggerObject_other _ _ _ _ Hrun) by done.
    erewrite base_security by done. by erewrite makeSecurity_Given.
  - revert Hrun. rewrite createSwaggerObject_outcome.
    destruct (outcome (mapRoutes _ _)) as [e|st]; [done|]. intros [= <-].
    eexists. split; [eapply finish_components, base_components|].
    simpl. by rewrite Hs.
Qed.

(** X11. With the security schemes switched off (a falsy option), the
    generator writes no [security]: the document carries the one of the
    extension object, if it has one, and [undefined] otherwise, and
    [components.securitySchemes] is the falsy value. *)
Theorem security_left_to_the_extension app opts doc :
  securitySchemes opts = Falsy →
  outcome (createSwaggerObject app opts) = inr doc →
  obj_get "security" doc
  = Some (match obj_get "security" (default [] (swagger app)) with
          | Some j => VJson j
          | None => VUndefined
          end) ∧
  ∃ c, obj_get "components" doc = Some (VComponents c) ∧
       components_securitySchemes c = Falsy.
Proof.
  intros Hs Hrun.
  assert (securitySchemes (withDefaults app opts) = Falsy) as Hs'
    by (simpl; by rewrite Hs).
  split.
  - rewrite (createSwaggerObject_other _ _ _ _ Hrun) by done.
    destruct (obj_get "security" (default [] (swagger app))) as [j|] eqn:Hj.
    + destruct (swagger app) as [ext|] eqn:Hext; [|done].
      eapply base_extension; [done..|compute_done|done|done].
    + unfold generateSwaggerObjectBase.
      rewrite defaults_miss by done.
      rewrite defaults_miss by (by rewrite obj_get_fmap, Hj).
      simpl. unfold makeSecurity. by rewrite Hs'.
  - revert Hrun. rewrite createSwaggerObject_outcome.
    destruct (outcome (mapRoutes _ _)) as [e|st]; [done|]. intros [= <-].
    eexists. split; [eapply finish_components, base_components|].
    simpl. by rewrite Hs.
Qed.

Lemma host_prefers_the_extension_aux app opts doc :
  outcome (createSwaggerObject app opts) = inr doc →
  ∃ v, obj_get "host" doc = Some v.
Proof.
  intros Hrun. rewrite (createSwaggerObject_other _ _ _ _ Hrun) by done.
  unfold generateSwaggerObjectBase. rewrite defaults_cons.
  change (defaults ?d []) with d.
  lazymatch goal with
  | |- context [match obj_get "host" ?d with _ => _ end] =>
      destruct (obj_get "host" d) as [v|] eqn:Hhost
  end.
  - destruct v;
      first [by rewrite obj_get_set_eq by done; eexists | by rewrite Hhost; eexists].
  - rewrite obj_get_set_eq by done. by eexists.
Qed.

(** X12. [host] comes from the extension object when it has that key; the
    [host] option of the caller is used only when it has not, and the key
    is there, holding [undefined], when neither gives one. *)
Theorem host_prefers_the_extension app opts doc :
  outcome (createSwaggerObject app opts) = inr doc →
  obj_get "host" doc
  = Some (match obj_get "host" (default [] (swagger app)) with
          | Some j => VJson j
          | None => match host opts with
                    | Some h => VString h
                    | None => VUndefined
                    end
          end).
Proof.
  intros Hrun. rewrite (createSwaggerObject_other _ _ _ _ Hrun) by done.
  destruct (obj_get "host" (default [] (swagger app))) as [j|] eqn:Hj.
  - destruct (swagger app) as [ext|] eqn:Hext; [|done].
    eapply base_extension; [done..|compute_done|done|done].
  - unfold generateSwaggerObjectBase. rewrite defaults_cons.
    change (defaults ?d []) with d.
    rewrite defaults_miss by (by rewrite obj_get_fmap, Hj).
    simpl. by rewrite obj_get_set_eq.
Qed.

Lemma obj_modify_keys {V} k (f : V → V) (o : Obj V) :
  obj_keys (obj_modify k f o) = obj_keys o.
Proof.
  unfold obj_keys, obj_modify. induction o as [|[k0 v0] o IH]; [done|].
  rewrite !fmap_cons. f_equal; [|exact IH].
  simpl. by destruct (String.eqb k0 k).
Qed.

Lemma defaults_keys d src (l : list string) :
  NoDup (obj_keys d) → StronglySorted index_first (obj_keys d) →
  l `prefix_of` names (obj_keys d) →
  NoDup (obj_keys (defaults d src)) ∧
  StronglySorted index_first (obj_keys (defaults d src)) ∧
  l `prefix_of` names (obj_keys (defaults d src)).
Proof.
  revert d. induction src as [|[k0 v0] src IH]; intros d Hnd Hidx Hpre; [done|].
  rewrite defaults_cons. apply IH.
  - destruct (obj_get k0 d) as [[]|]; try done; by apply obj_set_NoDup.
  - destruct (obj_get k0 d) as [[]|]; try done; by apply obj_set_index_first.
  - destruct (obj_get k0 d) as [[]|]; try done;
      (etrans; [exact Hpre|apply names_set_prefix]).
Qed.

(** X13. No key occurs twice in the returned document.  Its keys that
    are array indices (an extension object may have some) come first, in
    ascending order; its other keys begin with the seven fields of the
    generator, in the order [openapi], [info], [servers], [paths], [tags],
    [components], [security]; and [host] is always one of its keys. *)
Theorem document_keys app opts doc :
  outcome (createSwaggerObject app opts) = inr doc →
  NoDup (obj_keys doc) ∧
  StronglySorted index_first (obj_keys doc) ∧
  (coreKeys ++ ["security"]) `prefix_of` names (obj_keys doc) ∧
  "host" ∈ obj_keys doc.
Proof.
  intros Hrun.
  assert ("host" ∈ obj_keys doc) as Hhost.
  { destruct (decide ("host" ∈ obj_keys doc)) as [|Hno]; [done|].
    apply obj_get_None in Hno.
    destruct (host_prefers_the_extension_aux app opts doc Hrun) as [v Hv].
    congruence. }
  revert Hrun. rewrite createSwaggerObject_outcome.
  destruct (outcome (mapRoutes _ _)) as [e|st]; [done|]. intros [= Hdoc].
  assert (NoDup (obj_keys (generateSwaggerObjectBase (withDefaults app opts) app)) ∧
          StronglySorted index_first
            (obj_keys (generateSwaggerObjectBase (withDefaults app opts) app)) ∧
          (coreKeys ++ ["security"])
            `prefix_of` names (obj_keys (generateSwaggerObjectBase
                                           (withDefaults app opts) app)))
    as (Hnd & Hidx & Hpre).
  { unfold generateSwaggerObjectBase.
    lazymatch goal with
    | |- NoDup (obj_keys (defaults (defaults ?core ?ext) ?h)) ∧ _ =>
        assert (obj_keys core = coreKeys ++ ["security"]) as Hcore by reflexivity;
        destruct (defaults_keys core ext (coreKeys ++ ["security"]))
          as (Hnd1 & Hidx1 & Hpre1);
        [rewrite Hcore; compute_done
        |rewrite Hcore; repeat constructor
        |by rewrite Hcore|]
    end.
    by apply defaults_keys. }
  rewrite <- Hdoc in *. unfold finish. cbv zeta.
  split; [|split; [|split; [|done]]].
  - apply obj_set_NoDup. by rewrite !obj_modify_keys.
  - apply obj_set_index_first. by rewrite !obj_modify_keys.
  - etrans; [|apply names_set_prefix]. by rewrite !obj_modify_keys.
Qed.

End MoreBaseFacts.

(** ** Schemas, path items and tags of the document *)

Section MoreDocumentFacts.
Context `{Helpers}.
Implicit Types (app : Application) (opts : Options) (st : Assembly).

(** The schemas of the document are those of the registry, but for a
    schema named [__proto__]. *)
Lemma copied_schemas (m : gmap string Schema) k :
  obj_get k (assign [] (sortSchemas m))
  = if decide (k = "__proto__") then None else m !! k.
Proof.
  rewrite assign_get.
  - rewrite sortSchemas_get. simpl. by destruct (decide _); [|destruct (m !! k)].
  - eapply filled_NoDup; [apply sortSchemas_filled|constructor].
Qed.

(** X14. [components.schemas] holds the schemas of the type registry as
    the route loop leaves it, each under its name and unchanged; a name
    the registry does not know is not a key, and neither is the name
    [__proto__], which is assigned to and therefore lost. *)
Theorem schemas_are_those_of_the_registry app opts doc :
  outcome (createSwaggerObject app opts) = inr doc →
  ∃ st c,
    outcome (mapRoutes app (withDefaults app opts)) = inr st ∧
    obj_get "components" doc = Some (VComponents c) ∧
    ∀ k, obj_get k (schemas c)
         = if decide (k = "__proto__") then None
           else getSchemas (typeRegistry st) !! k.
Proof.
  rewrite createSwaggerObject_outcome.
  destruct (outcome (mapRoutes _ _)) as [e|st]; [done|]. intros [= <-].
  eexists st, _. split; [done|].
  split; [eapply finish_components, base_components|].
  intros k. cbn [schemas]. apply copied_schemas.
Qed.

Lemma copyMethod_keys (item : gmap string Operation) used :
  obj_keys (foldl (copyMethod item) ([], used) methods).1 = methods.
Proof. reflexivity. Qed.

Lemma copyPath_get (grid : gmap string (gmap string Operation))
    (ks : list string) acc path item :
  obj_get path (foldl (copyPath grid) acc ks).1 = Some item →
  obj_keys item = methods ∨ obj_get path acc.1 = Some item.
Proof.
  revert acc. induction ks as [|x ks IH]; intros acc; cbn [foldl]; [by right|].
  intros Hget. destruct (IH _ Hget) as [?|Hacc]; [by left|].
  unfold copyPath in Hacc. cbn [fst] in Hacc.
  apply obj_get_set_inv in Hacc as [[_ ->]|?]; [|by right].
  left. apply (copyMethod_keys _ acc.2).
Qed.

(** X15. The path items of the document: the paths are those of the
    grid filled by the route mapper, but for a path [__proto__], which is
    assigned to and therefore lost; every path item has the seven method
    keys, in the order get, post, put, patch, delete, head, options; a slot
    holds what the grid holds for that path and method, and what the grid
    holds under any other method is left out. *)
Theorem path_items_have_the_seven_slots app opts doc :
  outcome (createSwaggerObject app opts) = inr doc →
  ∃ st p,
    outcome (mapRoutes app (withDefaults app opts)) = inr st ∧
    obj_get "paths" doc = Some (VPaths p) ∧
    (∀ path, path ∈ obj_keys p
             ↔ is_Some (paths st !! path) ∧ path ≠ "__proto__") ∧
    (∀ path item, obj_get path p = Some item → obj_keys item = methods) ∧
    (∀ path m,
       operationAt p path m
       = if decide (m ∈ methods ∧ path ≠ "__proto__")
         then paths st !! path ≫= (.!! m) else None).
Proof.
  rewrite createSwaggerObject_outcome.
  destruct (outcome (mapRoutes _ _)) as [e|st]; [done|]. intros [= <-].
  eexists st, _. split; [done|].
  split; [apply finish_paths, base_paths|]. split; [|split].
  - intros path. apply copied_elem_of.
  - intros path item Hget.
    by destruct (copyPath_get _ _ _ _ _ Hget).
  - intros path m. rewrite copyPath_operationAt by done. cbn [fst].
    destruct (decide (path ∈ _ ∧ _)) as [[Hin Hne]|Hnin].
    + apply elem_of_sort_strings, elem_of_map_keys in Hin as [item Hitem].
      rewrite Hitem. simpl. destruct (decide (m ∈ methods)).
      * by rewrite decide_True.
      * rewrite decide_False; [done|]. by intros [? _].
    + destruct (decide (m ∈ methods ∧ path ≠ "__proto__")) as [[Hm Hne]|]; [|done].
      rewrite elem_of_sort_strings, elem_of_map_keys in Hnin.
      destruct (paths st !! path) eqn:Hpath; [|done].
      destruct Hnin. split; [by eexists|done].
Qed.

(** X16. Every tag of the document was built from a class of the list
    that has a name and at least one documented method: a class without
    name or without documented method gives no tag. *)
Theorem tags_come_from_eligible_classes app opts doc final :
  outcome (createSwaggerObject app opts) = inr doc →
  obj_get "tags" doc = Some (VTags final) →
  ∀ tag, tag ∈ final →
         ∃ aClass,
           aClass ∈ classes app ∧
           SharedClass.name aClass ≠ "" ∧
           (∃ m, m ∈ SharedClass.methods aClass ∧
                 SharedMethod.documented m = true) ∧
           tag = buildTagFromClass aClass.
Proof.
  rewrite createSwaggerObject_outcome.
  destruct (outcome (mapRoutes _ _)) as [e|st]; [done|]. intros [= <-].
  rewrite (finish_tags _ _ _ (base_paths _ _)). intros [= <-] tag Htag.
  unfold sort_with in Htag. rewrite merge_sort_Permutation in Htag.
  apply list_elem_of_filter in Htag as [_ Htag].
  rewrite collectTags_eligible in Htag.
  apply list_elem_of_fmap in Htag as (aClass & -> & Hc).
  apply list_elem_of_filter in Hc as [[Hname Hdoc] Hc].
  exists aClass. split; [done|]. split; [by intros Heq; rewrite Heq in Hname|].
  split; [|done].
  apply existsb_exists in Hdoc as (m & Hm & Hd).
  exists m. split; [by apply list_elem_of_In|done].
Qed.



End MoreDocumentFacts.

(** * The properties on concrete applications *)

Import Sample.

(** Closes [l = r] by evaluating [l]; [r] may still have to be found. *)
Ltac evaluate :=
  lazymatch goal with
  | |- ?l = ?r =>
      let v := eval vm_compute in l in
      unify r v; exact (eq_refl v <: l = v)
  end.

(** The document of [shop]: three paths and two schemas in ascending
    order, the tags of the two classes whose routes were mapped, and one
    diagnostic for the route of the unknown class. *)
Example shop_document :
  ∃ doc p c final,
    createSwaggerObject shop noOptions = ([RouteWithNoClass orphan], inr doc) ∧
    obj_get "paths" doc = Some (VPaths p) ∧
    obj_keys p = ["/gadgets"; "/widgets"; "/widgets/{id}"] ∧
    obj_get "components" doc = Some (VComponents c) ∧
    obj_keys (schemas c) = ["gadget"; "widget"] ∧
    obj_get "tags" doc = Some (VTags final) ∧
    name <$> final = ["gadget"; "widget"] ∧
    (operationId <$> operationAt p "/widgets/{id}" "get")
    = Some "widget.prototype.findById" ∧
    operationAt p "/gadgets/count" "get" = None ∧
    operationAt p "/widgets" "post" = None.
Proof.
  do 4 eexists. repeat (split; [evaluate|]). evaluate.
Qed.

(** Two eligible classes of one name give two tags of that name. *)
Example same_name_twice :
  ∃ doc final,
    outcome (createSwaggerObject
               (application [widgetFind] [widget; widget] None) noOptions)
    = inr doc ∧
    obj_get "tags" doc = Some (VTags final) ∧
    name <$> final = ["widget"; "widget"].
Proof.
  do 2 eexists. split; [evaluate|]. split; evaluate.
Qed.

(** Two models that share a name are told apart by the order in which
    they are registered. *)
Example model_order_matters :
  let first := {| model_name := "Account"; model_properties := ["id"] |} in
  let second := {| model_name := "Account"; model_properties := ["id"; "owner"] |} in
  ∃ doc c doc' c',
    outcome (createSwaggerObject
               (withModels shop [("a", first); ("b", second)]) noOptions)
    = inr doc ∧
    obj_get "components" doc = Some (VComponents c) ∧
    schemas c = [("Account", ["id"]); ("Account_", ["id"; "owner"])] ∧
    outcome (createSwaggerObject
               (withModels shop [("b", second); ("a", first)]) noOptions)
    = inr doc' ∧
    obj_get "components" doc' = Some (VComponents c') ∧
    schemas c' = [("Account", ["id"; "owner"]); ("Account_", ["id"])].
Proof.
  do 4 eexists. repeat (split; [evaluate|]). evaluate.
Qed.

(** C2, as the code has it, on the document of [shop]. *)
Lemma paths_and_schemas_keys_ordered_witness :
  ∃ doc,
    outcome (createSwaggerObject shop noOptions) = inr doc ∧
    ∃ p c,
      obj_get "paths" doc = Some (VPaths p) ∧
      obj_get "components" doc = Some (VComponents c) ∧
      (NoDup (obj_keys p) ∧
       StronglySorted index_first (obj_keys p) ∧
       StronglySorted String.le (names (obj_keys p)) ∧
       (Forall (λ k, array_index k = None) (obj_keys p) →
        StronglySorted String.le (obj_keys p))) ∧
      (NoDup (obj_keys (schemas c)) ∧
       StronglySorted index_first (obj_keys (schemas c)) ∧
       StronglySorted String.le (names (obj_keys (schemas c))) ∧
       (Forall (λ k, array_index k = None) (obj_keys (schemas c)) →
        StronglySorted String.le (obj_keys (schemas c)))).
Proof.
  eexists. split; [evaluate|].
  apply (paths_and_schemas_keys_ordered shop noOptions). evaluate.
Defined.

(** C2 fails as stated: with two models named "9" and "10", the keys of
    [components.schemas] are enumerated as 9, 10, which is their numeric
    order and not their ascending order as strings. *)
Lemma numeric_schema_names_not_ascending :
  ∃ doc c,
    outcome (createSwaggerObject (withModels shop numbered) noOptions) = inr doc ∧
    obj_get "components" doc = Some (VComponents c) ∧
    obj_keys (schemas c) = ["9"; "10"] ∧
    String.ltb "10" "9" = true ∧
    ¬ StronglySorted String.le (obj_keys (schemas c)).
Proof.
  do 2 eexists. split; [evaluate|]. split; [evaluate|].
  lazymatch goal with
  | |- ?l = _ ∧ _ => assert (l = ["9"; "10"]) as Hkeys by evaluate
  end.
  split; [exact Hkeys|]. split; [reflexivity|]. rewrite Hkeys.
  intros [Hall _]%StronglySorted_cons.
  apply Forall_cons in Hall as [Hle _]. by vm_compute in Hle.
Qed.

(** C3 on the slot of GET /widgets in the document of [shop]. *)
Lemma populated_slot_has_documented_route_witness :
  ∃ doc p operation,
    outcome (createSwaggerObject shop noOptions) = inr doc ∧
    obj_get "paths" doc = Some (VPaths p) ∧
    operationAt p "/widgets" "get" = Some operation ∧
    ("get" ∈ methods) ∧
    ∃ route classDef,
      (route ∈ routes shop) ∧ Route.documented route = true ∧
      delegated (classes shop) route classDef ∧
      mapsTo (withDefaults shop noOptions) route classDef "/widgets" "get" operation.
Proof.
  do 3 eexists.
  split; [evaluate|]. split; [evaluate|]. split; [evaluate|].
  refine (proj1 (populated_slot_has_documented_route
                   shop noOptions _ _ "/widgets" "get" _ _) _ _); evaluate.
Defined.

(** C1, as the code has it, on the document of [shop]. *)
Lemma tags_are_the_used_candidates_witness :
  ∃ doc,
    outcome (createSwaggerObject shop noOptions) = inr doc ∧
    ∃ st p final,
      outcome (mapRoutes shop (withDefaults shop noOptions)) = inr st ∧
      obj_get "paths" doc = Some (VPaths p) ∧
      obj_get "tags" doc = Some (VTags final) ∧
      (∀ tag, tag ∈ final → tag ∈ collectTags (classes shop)) ∧
      (∀ tag, tag ∈ final →
              tag_name tag ∉ objectPrototype →
              paths st !! "__proto__" = None →
              tagUsed p (tag_name tag)) ∧
      (∀ n, tagUsed p n →
            filter (λ tag, tag_name tag = n) final
            ≡ₚ filter (λ tag, tag_name tag = n) (collectTags (classes shop))) ∧
      StronglySorted (λ a b, String.le (tag_name a) (tag_name b)) final.
Proof.
  eexists. split; [evaluate|].
  apply (tags_are_the_used_candidates shop noOptions). evaluate.
Defined.

(** C1 fails as stated: the class "internal" has no documented method, so
    it yields no tag, yet its documented route is mapped and the operation
    carries the tag "internal".  A tag name used by an operation of the
    document is then absent from the tag list. *)
Lemma used_tag_without_candidate :
  ∃ doc p final,
    outcome (createSwaggerObject
               (application [internalReset] [widget; internal] None)
               noOptions) = inr doc ∧
    obj_get "paths" doc = Some (VPaths p) ∧
    obj_get "tags" doc = Some (VTags final) ∧
    tagUsed p "internal" ∧
    filter (λ tag, tag_name tag = "internal") final = [].
Proof.
  do 3 eexists.
  split; [evaluate|]. split; [evaluate|]. split; [evaluate|].
  split; [|reflexivity].
  exists "/internal/reset", "post", {| operationId := "internal.reset";
                                      tags := ["internal"] |}.
  split; [evaluate|]. apply elem_of_cons. by left.
Qed.

(** C4, as the code has it, on [shop] with its first two classes exchanged. *)
Lemma class_order_does_not_matter_witness :
  [gadget; widget; internal] ≡ₚ classes shop ∧
  NoDup (SharedClass.name <$> classes shop) ∧
  NoDup (tag_name <$> collectTags (classes shop)) ∧
  createSwaggerObject (withClasses shop [gadget; widget; internal]) noOptions
  = createSwaggerObject shop noOptions.
Proof.
  assert ([gadget; widget; internal] ≡ₚ classes shop) as Hperm
    by apply perm_swap.
  assert (NoDup (SharedClass.name <$> classes shop)) as Hnames
    by (vm_compute; compute_done).
  assert (NoDup (tag_name <$> collectTags (classes shop))) as Htags
    by (vm_compute; compute_done).
  split; [exact Hperm|]. split; [exact Hnames|]. split; [exact Htags|].
  exact (class_order_does_not_matter shop noOptions _ Hperm Hnames Htags).
Defined.

(** C4 fails as stated: two documented routes on the same path and verb.
    The later one wins, so listing them in the other order changes the
    operation that the document holds. *)
Lemma route_order_matters :
  [widgetFind; widgetList] ≡ₚ [widgetList; widgetFind] ∧
  (∃ doc p,
     outcome (createSwaggerObject
                (application [widgetFind; widgetList] [widget] None)
                noOptions) = inr doc ∧
     obj_get "paths" doc = Some (VPaths p) ∧
     operationId <$> operationAt p "/widgets" "get" = Some "widget.list") ∧
  (∃ doc p,
     outcome (createSwaggerObject
                (application [widgetList; widgetFind] [widget] None)
                noOptions) = inr doc ∧
     obj_get "paths" doc = Some (VPaths p) ∧
     operationId <$> operationAt p "/widgets" "get" = Some "widget.find") ∧
  createSwaggerObject (application [widgetFind; widgetList] [widget] None) noOptions
  ≠ createSwaggerObject (application [widgetList; widgetFind] [widget] None) noOptions.
Proof.
  split; [apply perm_swap|].
  split; [do 2 eexists; split; [evaluate|split; evaluate]|].
  split; [do 2 eexists; split; [evaluate|split; evaluate]|].
  intros Heq.
  assert (createSwaggerObject
            (application [widgetFind; widgetList] [widget] None) noOptions = _)
    as Hfirst by evaluate.
  assert (createSwaggerObject
            (application [widgetList; widgetFind] [widget] None) noOptions = _)
    as Hsecond by evaluate.
  rewrite Hfirst, Hsecond in Heq. discriminate Heq.
Qed.

(** C5 on the route "ghost.find" of [shop]. *)
Lemma orphan_route_reported_and_skipped_witness :
  Route.documented orphan = true ∧
  parseMethod (Route.method orphan) = Some ("ghost", "find") ∧
  Forall (λ c, SharedClass.name c ≠ "ghost") (classes shop) ∧
  outcome (createSwaggerObject
             (withRoutes shop ([widgetFindById; gadgetFind] ++ orphan
                               :: [gadgetCount; widgetFind])) noOptions)
  = outcome (createSwaggerObject
               (withRoutes shop ([widgetFindById; gadgetFind]
                                 ++ [gadgetCount; widgetFind])) noOptions) ∧
  diagnostics (createSwaggerObject
                 (withRoutes shop ([widgetFindById; gadgetFind] ++ orphan
                                   :: [gadgetCount; widgetFind])) noOptions)
  = [RouteWithNoClass orphan] ∧
  ∃ doc,
    outcome (createSwaggerObject
               (withRoutes shop ([widgetFindById; gadgetFind] ++ orphan
                                 :: [gadgetCount; widgetFind])) noOptions)
    = inr doc.
Proof.
  assert (Forall (λ c, SharedClass.name c ≠ "ghost") (classes shop)) as Hnone
    by (repeat constructor; discriminate).
  destruct (orphan_route_reported_and_skipped
              shop noOptions [widgetFindById; gadgetFind] orphan
              [gadgetCount; widgetFind] "ghost" "find"
              eq_refl eq_refl Hnone) as (Hsame & _ & Hret).
  split; [reflexivity|]. split; [reflexivity|]. split; [exact Hnone|].
  split; [exact Hsame|]. split; [evaluate|].
  apply Hret. intros x Hx _.
  repeat (apply elem_of_cons in Hx as [->|Hx]; [eexists; reflexivity|]).
  destruct (not_elem_of_nil _ Hx).
Defined.

(** C6, as the code has it, on the application with the extension
    object [extension]. *)
Lemma extension_merged_under_free_keys_witness :
  ∃ doc,
    swagger (application [widgetFind] [widget] (Some extension)) = Some extension ∧
    outcome (createSwaggerObject
               (application [widgetFind] [widget] (Some extension)) noOptions)
    = inr doc ∧
    (∀ k j,
       obj_get k extension = Some j →
       k ∉ coreKeys → k ≠ "__proto__" →
       (k = "security" → securitySchemes noOptions = Falsy) →
       obj_get k doc = Some (VJson j)) ∧
    ∃ doc0,
      outcome (createSwaggerObject
                 (withSwagger (application [widgetFind] [widget] (Some extension))
                    None) noOptions) = inr doc0 ∧
      ∀ k, k ∈ coreKeys ∨ (k = "security" ∧ securitySchemes noOptions ≠ Falsy) →
           obj_get k doc = obj_get k doc0.
Proof.
  eexists. split; [reflexivity|]. split; [evaluate|].
  apply (extension_merged_under_free_keys
           (application [widgetFind] [widget] (Some extension)) noOptions
           extension); [reflexivity|evaluate].
Defined.

(** C6 fails as stated: the extension object sets [openapi] to "2.0", and
    the returned document still says "3.0.1". *)
Lemma extension_cannot_override_openapi :
  ∃ doc,
    swagger (application [widgetFind] [widget] (Some extension)) = Some extension ∧
    obj_get "openapi" extension = Some (JString "2.0") ∧
    outcome (createSwaggerObject
               (application [widgetFind] [widget] (Some extension)) noOptions)
    = inr doc ∧
    obj_get "openapi" doc = Some (VString "3.0.1") ∧
    obj_get "openapi" doc ≠ Some (VJson (JString "2.0")).
Proof.
  eexists. split; [reflexivity|]. split; [reflexivity|].
  split; [evaluate|].
  lazymatch goal with
  | |- ?l = _ ∧ _ => assert (l = Some (VString "3.0.1")) as Hget by evaluate
  end.
  split; [exact Hget|]. rewrite Hget. discriminate.
Qed.


(** C8 (scenario E): the code departs from it.  The class "gadget"
    declares an allow-list that holds "find" only.  Its documented route
    resolving to "count" leaves no operation in the document and the one
    resolving to "find" is mapped, but its documented route resolving to
    "toString" is mapped all the same: the allow-list is a plain object,
    and reading it under "toString" finds the function inherited from
    [Object.prototype]. *)
Theorem allow_list_lets_toString_through :
  ∃ doc operation doc' doc'' operation'',
    findClass [gadget] "gadget" = Some gadget ∧
    SharedClass._swaggerMethods gadget = Some {[ "find" := true ]} ∧
    Route.documented gadgetToString = true ∧
    parseMethod (Route.method gadgetToString) = Some ("gadget", "toString") ∧
    filteredOut gadget "toString" = false ∧
    outcome (createSwaggerObject
               (application [gadgetToString] [gadget] None) noOptions)
    = inr doc ∧
    operationAt (documentPaths doc) "/gadgets/toString" "get" = Some operation ∧
    operationId operation = "gadget.toString" ∧
    parseMethod (Route.method gadgetCount) = Some ("gadget", "count") ∧
    filteredOut gadget "count" = true ∧
    outcome (createSwaggerObject
               (application [gadgetCount] [gadget] None) noOptions)
    = inr doc' ∧
    documentPaths doc' = [] ∧
    parseMethod (Route.method gadgetFind) = Some ("gadget", "find") ∧
    filteredOut gadget "find" = false ∧
    outcome (createSwaggerObject
               (application [gadgetFind] [gadget] None) noOptions)
    = inr doc'' ∧
    operationAt (documentPaths doc'') "/gadgets" "get" = Some operation'' ∧
    operationId operation'' = "gadget.find".
Proof.
  do 5 eexists. do 5 (split; [reflexivity|]).
  split; [evaluate|]. split; [evaluate|]. split; [reflexivity|].
  do 2 (split; [reflexivity|]). split; [evaluate|]. split; [evaluate|].
  do 2 (split; [reflexivity|]). split; [evaluate|]. split; [evaluate|].
  reflexivity.
Qed.

(** C9 on [shop], called without options. *)
Lemma default_security_requirements_witness :
  securitySchemes noOptions = Absent ∧
  ∃ doc,
    outcome (createSwaggerObject shop noOptions) = inr doc ∧
    obj_get "security" doc
    = Some (VSecurity [ [("accessToken", [])]; [("accessTokenParam", [])] ]).
Proof.
  split; [reflexivity|].
  apply (proj2 (default_security_requirements shop noOptions eq_refl)).
  intros r Hr _.
  repeat (apply elem_of_cons in Hr as [->|Hr]; [eexists; reflexivity|]).
  destruct (not_elem_of_nil _ Hr).
Defined.

(** C10 on a route list that holds the identifier "status". *)
Lemma undotted_identifier_throws_witness :
  (undotted ∈ routes (withRoutes shop [widgetFind; undotted; gadgetFind])) ∧
  Route.documented undotted = true ∧
  ("."%char ∉ list_ascii_of_string (Route.method undotted)) ∧
  outcome (createSwaggerObject
             (withRoutes shop [widgetFind; undotted; gadgetFind]) noOptions)
  = inl TypeError.
Proof.
  assert (undotted ∈ routes (withRoutes shop [widgetFind; undotted; gadgetFind]))
    as Hin by (apply elem_of_cons; right; apply elem_of_cons; by left).
  assert ("."%char ∉ list_ascii_of_string (Route.method undotted)) as Hdot
    by compute_done.
  split; [exact Hin|]. split; [reflexivity|]. split; [exact Hdot|].
  exact (undotted_identifier_throws _ noOptions undotted Hin eq_refl Hdot).
Defined.

(** X2 on the identifier "widget.fooprototype.bar". *)
Lemma parseMethod_strips_leftmost_marker_witness :
  ∃ methodName,
    parseMethod ("widget" +:+ String "." "fooprototype.bar")
    = Some ("widget", methodName) ∧
    ((∀ a b, "fooprototype.bar" ≠ a +:+ "prototype." +:+ b) →
     methodName = "fooprototype.bar") ∧
    (∀ a b, "fooprototype.bar" = a +:+ "prototype." +:+ b →
            ∃ a' b',
              "fooprototype.bar" = a' +:+ "prototype." +:+ b' ∧
              (String.length a' ≤ String.length a)%nat ∧
              methodName = a' +:+ b').
Proof.
  apply (parseMethod_strips_leftmost_marker "widget" "fooprototype.bar");
    [discriminate|compute_done|reflexivity].
Defined.

(** X3 on [shop] with the route [hidden] in the middle. *)
Lemma undocumented_route_is_inert_witness :
  Route.documented hidden = false ∧
  createSwaggerObject (withRoutes shop ([widgetFind] ++ hidden :: [gadgetFind])) noOptions
  = createSwaggerObject (withRoutes shop ([widgetFind] ++ [gadgetFind])) noOptions.
Proof.
  split; [reflexivity|].
  exact (undocumented_route_is_inert shop noOptions [widgetFind] hidden
           [gadgetFind] eq_refl).
Defined.

(** X5 on [shop]. *)
Lemma diagnostics_are_the_orphans_witness :
  ∃ doc,
    outcome (createSwaggerObject shop noOptions) = inr doc ∧
    diagnostics (createSwaggerObject shop noOptions)
    = RouteWithNoClass
        <$> filter (λ r, orphaned (classes shop) r = true) (routes shop).
Proof.
  eexists. split; [evaluate|].
  eapply diagnostics_are_the_orphans. evaluate.
Defined.

(** X6 on the class [sealed], whose allow-list is empty, and on the class
    [gadget], whose allow-list holds "find". *)
Lemma allow_list_filters_by_truthiness_witness :
  createSwaggerObject
    (application ([widgetFind] ++ sealedFind :: [gadgetFind])
       [widget; sealed; gadget] None) noOptions
  = createSwaggerObject
      (application ([widgetFind] ++ [gadgetFind])
         [widget; sealed; gadget] None) noOptions ∧
  (∀ opts',
     mapRoutes (withRoutes shop ([widgetFind] ++ gadgetFind :: [gadgetCount])) opts'
     = (st ← mapRoutes (withRoutes shop [widgetFind]) opts';
        forEachM (routeStep (classes shop) opts') [gadgetCount]
          (addRouteToSwaggerPaths gadgetFind gadget st opts'))) ∧
  ∃ doc operation,
    outcome (createSwaggerObject
               (withRoutes shop ([widgetFind] ++ [gadgetFind])) noOptions)
    = inr doc ∧
    operationAt (documentPaths doc) "/gadgets" "get" = Some operation.
Proof.
  split.
  - apply (proj1 (allow_list_filters_by_truthiness
                    (application [] [widget; sealed; gadget] None) noOptions
                    [widgetFind] sealedFind [gadgetFind]
                    "sealed" "find" sealed ∅
                    eq_refl eq_refl eq_refl eq_refl)).
    reflexivity.
  - destruct (proj2 (allow_list_filters_by_truthiness
                       shop noOptions [widgetFind] gadgetFind [gadgetCount]
                       "gadget" "find" gadget {[ "find" := true ]}
                       eq_refl eq_refl eq_refl eq_refl) eq_refl)
      as [Hloop Hdoc].
    split; [exact Hloop|].
    edestruct Hdoc with (path := "/gadgets") (m := "get")
      as (doc & Hrun & Hop); [evaluate|evaluate|compute_done|discriminate|].
    exists doc. eexists. split; [exact Hrun|exact Hop].
Defined.

(** X8 on [shop] with the base path "/v1/". *)
Lemma servers_url_drops_one_trailing_slash_witness :
  ∃ doc,
    outcome (createSwaggerObject shop custom) = inr doc ∧
    ∃ u,
      obj_get "servers" doc = Some (VServers [ {| url := Some u |} ]) ∧
      (ends_with_slash "/v1/" = true → "/v1/" = u +:+ "/") ∧
      (ends_with_slash "/v1/" = false → u = "/v1/").
Proof.
  eexists. split; [evaluate|].
  apply (servers_url_drops_one_trailing_slash shop custom). evaluate.
Defined.

(** X9 on [shop] with a title and a contact in [apiInfo]. *)
Lemma info_is_completed_witness :
  ∃ doc,
    outcome (createSwaggerObject shop custom) = inr doc ∧
    ∃ i,
      obj_get "info" doc = Some (VInfo i) ∧
      obj_get "title" i = Some "Shop" ∧ truthy "Shop" = true ∧
      obj_get "description" i = Some "LoopBack Application" ∧
      truthy "LoopBack Application" = true ∧
      obj_get "version" i = Some "1.0.0" ∧
      ∀ k, k ≠ "version" → k ≠ "title" → k ≠ "description" →
           obj_get k i
           = convertText <$> obj_get k [("title", "Shop"); ("contact", "ops")].
Proof.
  eexists. split; [evaluate|].
  apply (info_is_completed shop custom). evaluate.
Defined.

(** X10 on [shop] with the one scheme of [custom]. *)
Lemma security_follows_the_schemes_witness :
  ∃ doc,
    outcome (createSwaggerObject shop custom) = inr doc ∧
    obj_get "security" doc = Some (VSecurity [ [("bearer", [])] ]) ∧
    ∃ c, obj_get "components" doc = Some (VComponents c) ∧
         components_securitySchemes c
         = Given [ ("bearer", {| scheme_type := "http"; scheme_in := "header";
                                 scheme_name := "authorization" |}) ].
Proof.
  eexists. split; [evaluate|].
  apply (security_follows_the_schemes shop custom _ _ eq_refl). evaluate.
Defined.

(** X11 on an application whose extension object brings its own
    [security]. *)
Lemma security_left_to_the_extension_witness :
  ∃ doc,
    outcome (createSwaggerObject
               (application [widgetFind] [widget] (Some hosted)) unsecured)
    = inr doc ∧
    obj_get "security" doc = Some (VJson (JArray [])) ∧
    ∃ c, obj_get "components" doc = Some (VComponents c) ∧
         components_securitySchemes c = Falsy.
Proof.
  eexists. split; [evaluate|].
  apply (security_left_to_the_extension
           (application [widgetFind] [widget] (Some hosted)) unsecured _ eq_refl).
  evaluate.
Defined.

(** X12 on the same application: the host of the extension object wins
    over the option. *)
Lemma host_prefers_the_extension_witness :
  ∃ doc,
    outcome (createSwaggerObject
               (application [widgetFind] [widget] (Some hosted)) unsecured)
    = inr doc ∧
    obj_get "host" doc = Some (VJson (JString "example.org")).
Proof.
  eexists. split; [evaluate|].
  apply (host_prefers_the_extension
           (application [widgetFind] [widget] (Some hosted)) unsecured).
  evaluate.
Defined.

(** X13 on the application with the extension object [extension]. *)
Lemma document_keys_witness :
  ∃ doc,
    outcome (createSwaggerObject
               (application [widgetFind] [widget] (Some extension)) custom)
    = inr doc ∧
    NoDup (obj_keys doc) ∧
    StronglySorted index_first (obj_keys doc) ∧
    (coreKeys ++ ["security"]) `prefix_of` names (obj_keys doc) ∧
    ("host" ∈ obj_keys doc).
Proof.
  eexists. split; [evaluate|].
  apply (document_keys (application [widgetFind] [widget] (Some extension)) custom).
  evaluate.
Defined.

(** X14 on [shop]. *)
Lemma schemas_are_those_of_the_registry_witness :
  ∃ doc,
    outcome (createSwaggerObject shop noOptions) = inr doc ∧
    ∃ st c,
      outcome (mapRoutes shop (withDefaults shop noOptions)) = inr st ∧
      obj_get "components" doc = Some (VComponents c) ∧
      ∀ k, obj_get k (schemas c)
           = if decide (k = "__proto__") then None
             else getSchemas (typeRegistry st) !! k.
Proof.
  eexists. split; [evaluate|].
  apply (schemas_are_those_of_the_registry shop noOptions). evaluate.
Defined.

(** X15 on [shop]. *)
Lemma path_items_have_the_seven_slots_witness :
  ∃ doc,
    outcome (createSwaggerObject shop noOptions) = inr doc ∧
    ∃ st p,
      outcome (mapRoutes shop (withDefaults shop noOptions)) = inr st ∧
      obj_get "paths" doc = Some (VPaths p) ∧
      (∀ path, path ∈ obj_keys p
               ↔ is_Some (paths st !! path) ∧ path ≠ "__proto__") ∧
      (∀ path item, obj_get path p = Some item → obj_keys item = methods) ∧
      (∀ path m,
         operationAt p path m
         = if decide (m ∈ methods ∧ path ≠ "__proto__")
           then paths st !! path ≫= (.!! m) else None).
Proof.
  eexists. split; [evaluate|].
  apply (path_items_have_the_seven_slots shop noOptions). evaluate.
Defined.

(** X16 on [shop]. *)
Lemma tags_come_from_eligible_classes_witness :
  ∃ doc final,
    outcome (createSwaggerObject shop noOptions) = inr doc ∧
    obj_get "tags" doc = Some (VTags final) ∧
    ∀ tag, tag ∈ final →
           ∃ aClass,
             aClass ∈ classes shop ∧
             SharedClass.name aClass ≠ "" ∧
             (∃ m, m ∈ SharedClass.methods aClass ∧
                   SharedMethod.documented m = true) ∧
             tag = buildTagFromClass aClass.
Proof.
  do 2 eexists. split; [evaluate|]. split; [evaluate|].
  refine (tags_come_from_eligible_classes shop noOptions _ _ _ _); evaluate.
Defined.


(** The tag of the class "toString" is in the document although no
    operation carries it. *)
Example inherited_name_reads_as_used :
  ∃ doc final,
    outcome (createSwaggerObject
               (application [hidden] [widget; stringer] None) noOptions)
    = inr doc ∧
    obj_get "tags" doc = Some (VTags final) ∧
    name <$> final = ["toString"] ∧
    documentPaths doc = [].
Proof.
  do 2 eexists. split; [evaluate|]. split; [evaluate|]. split; evaluate.
Qed.

(** A security scheme, a schema and a path named [__proto__] are assigned
    to the prototype of a fresh object: the requirement has no property,
    and neither [components.schemas] nor [paths] gets that key, although
    the tag of the lost operation still reads as used. *)
Example proto_is_not_a_property :
  let operation := {| operationId := "widget.find"; tags := ["widget"] |} in
  let grid : gmap string (gmap string OperationObject) :=
    {[ "__proto__" := {[ "get" := operation ]} ]} in
  makeSecurity
    {| basePath := None; consumes := None; produces := None;
       securitySchemes :=
         Given [ ("__proto__", {| scheme_type := "apiKey"; scheme_in := "header";
                                  scheme_name := "authorization" |}) ];
       version := None; apiInfo := None; host := None |}
  = VSecurity [ [] ] ∧
  sortSchemas ({[ "__proto__" := ["id"] ]} : gmap string (list string)) = [] ∧
  (foldl (copyPath grid) ([], ∅) (sort_strings (map_keys grid))).1 = [] ∧
  plain_truthy (foldl (copyPath grid) ([], ∅) (sort_strings (map_keys grid))).2
               "widget" = true.
Proof.
  intros operation grid. split; [evaluate|]. split; [evaluate|].
  split; evaluate.
Qed.
